(** * Duplicate image finder: the pairwise search engine and its comparators

    A shallow embedding of [duplicate.py]: the attribute cache ([get_size],
    [get_hash] under [lru_cache]), the two comparators ([compare_exactly],
    [compare_histograms]) and the search ([similar_images], [pool_filter]),
    followed by the properties the specification states about them. *)

From Stdlib Require Import Floats ZArith.
From Stdlib Require Uint63 Ascii.
Import (notations) Ascii.
From stdpp Require Import gmap strings list sorting.

(** ** The Python runtime, as far as the program uses it *)

Module Python.

(** The exception classes the program can meet.  [IOError] is Python 3's
    alias of [OSError]; it carries the file name it was raised for. *)
Inductive exn : Type :=
  | IOError (filename : string)
  | TypeError
  | ValueError
  | ZeroDivisionError
  | OverflowError.

(** The outcome of evaluating an expression: a value, or a raised
    exception. *)
Inductive result (A : Type) : Type :=
  | Ok (a : A)
  | Raise (e : exn).
Arguments Ok {A} a.
Arguments Raise {A} e.

#[export] Instance result_ret : MRet result := λ A a, Ok a.
#[export] Instance result_bind : MBind result := λ A B k m,
  match m with
  | Ok a => k a
  | Raise e => Raise e
  end.
#[export] Instance result_fmap : FMap result := λ A B f m,
  match m with
  | Ok a => Ok (f a)
  | Raise e => Raise e
  end.

(** [l.index(x)]: the position of the first element equal to [x];
    [ValueError] when there is none. *)
Fixpoint index (x : string) (l : list string) : result nat :=
  match l with
  | [] => Raise ValueError
  | y :: l' => if decide (y = x) then Ok 0 else S <$> index x l'
  end.

(** [Pool._get_tasks]: the work list cut into consecutive chunks of [size]
    items, the last one possibly shorter.  [fuel] bounds the number of
    chunks; the length of the list is always enough. *)
Fixpoint get_tasks_fuel {A} (fuel size : nat) (l : list A) : list (list A) :=
  match fuel, l with
  | 0, _ | _, [] => []
  | S fuel', _ => take size l :: get_tasks_fuel fuel' size (drop size l)
  end.

Definition get_tasks {A} (size : Z) (l : list A) : list (list A) :=
  get_tasks_fuel (length l) (Z.to_nat size) l.

(** [Pool.starmap(func, iterable, chunksize)] for an integer [chunksize],
    as [Pool._map_async] and [MapResult] of CPython's [multiprocessing.pool]
    do it.  The result starts as a list of [None], one for every item.
    With a chunk size above zero every chunk is handed to a worker, which
    applies [func] to each item of it, and the results are put at the
    positions of their items; a call that raises makes the whole map raise.
    With a chunk size of zero or below the result counts as complete from
    the start: it is returned as it is, [None] at every position, and
    nothing a worker does reaches it.  When calls of several chunks raise,
    the exception of the chunk that finishes first is the one reported;
    here the first chunk in the order of the list stands for it, which is
    the same whenever the calls raise the same exception. *)
Definition starmap {A B} (func : A → result B) (iterable : list A) (chunksize : Z)
    : result (list (option B)) :=
  if decide (0 < chunksize)%Z then
    chunks ← mapM (mapM func) (get_tasks chunksize iterable);
    mret (Some <$> concat chunks)
  else Ok (replicate (length iterable) None).

(** [float(n)] for a length or a pixel count [n], which stays far below
    2^63: the nearest double. *)
Definition float_of_nat (n : nat) : float :=
  of_uint63 (Uint63.of_Z (Z.of_nat n)).

(** The error number a function of the C library leaves behind: none,
    [ERANGE], or another one, for which [EDOM] stands. *)
Inductive errno : Type :=
  | no_error
  | ERANGE
  | EDOM.

(** The C library of the platform, as far as the program reaches it:
    [pow(x, 2.0)], its value and the error number it leaves.  The C standard
    does not fix the value to the last bit, and the libraries differ. *)
Record libm : Type := {
  pow_2 : float → float * errno
}.

(** [_Py_ADJUST_ERANGE1(x)]: an infinite result counts as a range error
    whether or not the library reported one, and a reported range error
    with a result of zero (an underflow) does not count. *)
Definition adjust_erange1 (x : float) (e : errno) : errno :=
  match e with
  | no_error => if (x =? infinity)%float || (x =? neg_infinity)%float then ERANGE else no_error
  | ERANGE => if (x =? 0)%float then no_error else ERANGE
  | EDOM => EDOM
  end.

(** [v ** 2] on floats, as [float_pow] of CPython evaluates it with the
    exponent 2.0.  The special cases are sorted out first: a NaN is
    returned as it is, an infinity gives the positive infinity, a zero the
    positive zero; a negative [v] is replaced by [-v], and 1 gives 1.  For
    every other [v] the power function of the C library steps in; an error
    number left after the adjustment raises [OverflowError] when it is
    [ERANGE] and [ValueError] otherwise. *)
Definition pow2 (m : libm) (v : float) : result float :=
  if is_nan v then Ok v
  else if is_infinity v then Ok (abs v)
  else if (v =? 0)%float then Ok 0%float
  else
    let iv := if (v <? 0)%float then (- v)%float else v in
    if (iv =? 1)%float then Ok 1%float
    else
      let '(ix, e) := pow_2 m iv in
      match adjust_erange1 ix e with
      | no_error => Ok ix
      | ERANGE => Raise OverflowError
      | EDOM => Raise ValueError
      end.

(** [sum(iterable)], as CPython up to 3.11 adds floats: the items are added
    from left to right, starting from 0, each addition rounded. *)
Definition sum_floats (xs : list float) : float :=
  foldl (λ acc x, (acc + x)%float) 0%float xs.

(** [total / n] for a float (or the integer 0) [total] and an integer
    [n]: division by zero raises, whatever the numerator. *)
Definition truediv (total : float) (n : nat) : result float :=
  match n with
  | 0 => Raise ZeroDivisionError
  | _ => Ok (total / float_of_nat n)%float
  end.

(** [math.sqrt]: a negative argument is a domain error. *)
Definition math_sqrt (x : float) : result float :=
  if (x <? 0)%float then Raise ValueError else Ok (PrimFloat.sqrt x).

(** [s.rstrip('/')]: the string without its trailing slashes. *)
Fixpoint rstrip_slash (s : string) : string :=
  match s with
  | "" => ""
  | String a s' =>
      match rstrip_slash s' with
      | "" => if decide (a = "/"%char) then "" else String a ""
      | stripped => String a stripped
      end
  end.

Definition starts_with_slash (s : string) : bool :=
  match s with
  | String a _ => bool_decide (a = "/"%char)
  | "" => false
  end.

Fixpoint ends_with_slash (s : string) : bool :=
  match s with
  | "" => false
  | String a "" => bool_decide (a = "/"%char)
  | String _ s' => ends_with_slash s'
  end.

(** [os.path.join(a, b)] of posixpath: an absolute [b] replaces [a]; a
    separator is put between the two unless [a] is empty or ends with
    one. *)
Definition os_path_join (a b : string) : string :=
  if starts_with_slash b then b
  else if bool_decide (a = "") || ends_with_slash a then a +:+ b
  else a +:+ "/" +:+ b.

(** The order of tuples of two strings: by the first components, and by the
    second ones when the first are equal.  Strings are ordered character by
    character, as [String.le] does. *)
Definition pair_le (p q : string * string) : Prop :=
  (p.1 ≠ q.1 ∧ String.le p.1 q.1) ∨ (p.1 = q.1 ∧ String.le p.2 q.2).

#[export] Instance pair_le_dec : RelDecision pair_le.
Proof. intros p q. unfold pair_le. apply _. Defined.

(** [sorted(l)]: the sorted rearrangement of [l].  The orders are total and
    two items that are equivalent are equal, so that every sorting
    algorithm returns the same list; this one merges. *)
Definition sorted (l : list string) : list string := merge_sort String.le l.

Definition sorted_pairs (l : list (string * string)) : list (string * string) :=
  merge_sort pair_le l.

(** [os.remove(path)]: the directory entry the path leads to is taken away.
    [entry] gives the entry a path names, the path with the links to
    directories on its way followed: two paths through a linked directory
    name the same entry, and what goes for the one is gone for the other.
    [files] is the set of the entries that are there.  The call raises when
    there is no such entry or when it may not be removed.  The directories
    and the links to them are taken as staying in place: the paths removed
    here are those of files. *)
Definition os_remove (entry : string → string) (may_remove : string → bool)
    (path : string) (files : gset string) : result (gset string) :=
  if decide (entry path ∈ files) then
    if may_remove (entry path) then Ok (files ∖ {[entry path]}) else Raise (IOError path)
  else Raise (IOError path).

(** The outcome of a recursive function: [None] when the recursion goes
    deeper than the interpreter allows, which ends the run as an exception
    does. *)
Fixpoint deep_mapM {A B} (f : A → option (result B)) (l : list A)
    : option (result (list B)) :=
  match l with
  | [] => Some (Ok [])
  | x :: l' =>
      match f x with
      | None => None
      | Some (Raise e) => Some (Raise e)
      | Some (Ok y) =>
          match deep_mapM f l' with
          | None => None
          | Some (Raise e) => Some (Raise e)
          | Some (Ok ys) => Some (Ok (y :: ys))
          end
      end
  end.

End Python.

Import Python.

(** ** image_wrapper.py *)

Module image_wrapper.

(** Modelled from the spec: the class [ImageWrapper] of image_wrapper.py,
    which is not among the sources.  An image representation is a decoded
    image exposing width, height and a histogram, a sequence of bucket
    values. *)
Record ImageWrapper : Type := {
  width : nat;
  height : nat;
  histogram : list float
}.

Definition get_histogram (image : ImageWrapper) : list float := histogram image.

(** Modelled from the spec: why the construction of an image representation
    from a file reference may fail, an I/O error (unreadable file) or an
    unsupported or corrupt format (not an image). *)
Inductive decode_error : Type :=
  | io_error
  | bad_format.

(** The decoding capability the comparators consume:
    [decode(path) → {width, height, histogram} | DecodeError]. *)
Definition decoder : Type := string → decode_error + ImageWrapper.

(** Modelled from the spec: [ImageWrapper.create] of image_wrapper.py.  It
    decodes the file; a failure surfaces as the exception of its kind,
    [IOError] for an I/O error and [TypeError] for a file that is no
    image. *)
Definition create (decode : decoder) (file : string) : result ImageWrapper :=
  match decode file with
  | inr image => Ok image
  | inl io_error => Raise (IOError file)
  | inl bad_format => Raise TypeError
  end.

(** The width/height ratio of an image, as a float. *)
Definition get_aspect (image : ImageWrapper) : float :=
  (float_of_nat (width image) / float_of_nat (height image))%float.

(** Modelled from the spec: [aspects_roughly_equal] of image_wrapper.py.
    The two ratios are roughly equal unless they differ by more than
    [aspect_fuzziness]; [relative_difference] measures by how much two
    ratios differ, the specification leaves its formula open. *)
Definition aspects_roughly_equal (relative_difference : float → float → float)
    (image other_image : ImageWrapper) (aspect_fuzziness : float) : bool :=
  negb (aspect_fuzziness <? relative_difference (get_aspect image) (get_aspect other_image))%float.

End image_wrapper.

Import image_wrapper.

(** ** parse_commandline.py *)

Module parse_commandline.

(** The values the parser admits for [--comparison-method] and for
    [--action-equal], and the defaults it fills in. *)
Definition comparison_method_choices : list string :=
  ["compare_exactly"; "compare_histograms"].

Definition comparison_method_default : string := "compare_exactly".

Definition action_equal_choices : list string :=
  ["delete_first"; "delete_second"; "view"; "none"].

Definition action_equal_default : string := "view".

End parse_commandline.

Import parse_commandline.

(** ** duplicate.py *)

Module Duplicate.

Definition CHUNK_SIZE : Z := 25.

(** *** The file enumerator *)

(** What the operating system answers about the directory tree:
    [os.listdir], which may raise, [os.path.isdir] and [os.path.isfile]. *)
Record directories : Type := {
  listdir : string → result (list string);
  isdir : string → bool;
  isfile : string → bool
}.

(** [files_in_dir(dir_name, is_file)].  Every entry of the listing of
    [dir_name.rstrip('/')] is joined to it; a directory is scanned by the
    recursive call, which is made without [is_file] and so with its default
    [os.path.isfile]; any other path is kept when [is_file] accepts it.  The
    lists are concatenated in the order of the listing.  [fuel] is the depth
    of recursion allowed. *)
Fixpoint files_in_dir (fuel : nat) (os : directories) (dir_name : string)
    (is_file : string → bool) : option (result (list string)) :=
  match fuel with
  | 0 => None
  | S fuel' =>
      let files_in_path (path : string) : option (result (list string)) :=
        if isdir os path then files_in_dir fuel' os path (isfile os)
        else Some (Ok (if is_file path then [path] else [])) in
      match listdir os (rstrip_slash dir_name) with
      | Raise e => Some (Raise e)
      | Ok names =>
          match
            deep_mapM (λ path, files_in_path (os_path_join (rstrip_slash dir_name) path))
              names
          with
          | None => None
          | Some (Raise e) => Some (Raise e)
          | Some (Ok lists) => Some (Ok (concat lists))
          end
      end
  end.

(** *** The attribute cache *)

(** What the operating system answers for a path: [os.path.getsize(file)]
    and [md5(open(file, 'rb').read()).hexdigest()], each of which may
    raise. *)
Record file_system : Type := {
  getsize : string → result Z;
  md5_hexdigest : string → result string
}.

(** The two tables of [lru_cache(maxsize=None)]: nothing is ever
    evicted. *)
Record cache : Type := {
  sizes : gmap string Z;
  hashes : gmap string string
}.

Definition empty_cache : cache := {| sizes := ∅; hashes := ∅ |}.

(** A computation that reads and fills the cache and may raise. *)
Definition cached (A : Type) : Type := cache → result A * cache.

#[export] Instance cached_ret : MRet cached := λ A a c, (Ok a, c).
#[export] Instance cached_bind : MBind cached := λ A B k m c,
  match m c with
  | (Ok a, c') => k a c'
  | (Raise e, c') => (Raise e, c')
  end.

(** [get_size] under [lru_cache]: a stored answer is returned as it is; a
    computed one is stored; an exception is not. *)
Definition get_size (os : file_system) (file : string) : cached Z := λ c,
  match sizes c !! file with
  | Some size => (Ok size, c)
  | None =>
      match getsize os file with
      | Ok size => (Ok size, {| sizes := <[file := size]> (sizes c); hashes := hashes c |})
      | Raise e => (Raise e, c)
      end
  end.

Definition get_hash (os : file_system) (file : string) : cached string := λ c,
  match hashes c !! file with
  | Some digest => (Ok digest, c)
  | None =>
      match md5_hexdigest os file with
      | Ok digest => (Ok digest, {| sizes := sizes c; hashes := <[file := digest]> (hashes c) |})
      | Raise e => (Raise e, c)
      end
  end.

(** *** The comparators *)

(** [get_size(other_file) == get_size(file) and get_hash(file) == get_hash(other_file)]:
    the operands are evaluated from left to right, and the hashes only when
    the sizes are equal. *)
Definition compare_exactly (os : file_system) (file other_file : string)
    (aspect_fuzziness rms_error : float) : cached bool :=
  size_other ← get_size os other_file;
  size_file ← get_size os file;
  if bool_decide (size_other = size_file) then
    hash_file ← get_hash os file;
    hash_other ← get_hash os other_file;
    mret (bool_decide (hash_file = hash_other))
  else mret false.

(** [map(lambda a, b: (a - b) ** 2, hist, other_hist)]: the map stops with
    the shorter list; consuming it raises at the first square that is out
    of range. *)
Definition get_deviations (m : libm) (hist other_hist : list float)
    : result (list float) :=
  mapM (pow2 m) (zip_with (λ a b, (a - b)%float) hist other_hist).

Definition compare_image_histograms (m : libm)
    (relative_difference : float → float → float)
    (image other_image : ImageWrapper) (aspect_fuzziness rms_error : float)
    : result bool :=
  if negb (aspects_roughly_equal relative_difference image other_image aspect_fuzziness)
  then Ok false
  else
    deviations ← get_deviations m (get_histogram image) (get_histogram other_image);
    mean ← truediv (sum_floats deviations) (length (get_histogram image));
    rms ← math_sqrt mean;
    mret (rms <? rms_error)%float.

(** [try: ... except (IOError, TypeError): return False]; the two images
    are created, the first one first, before the comparison is called. *)
Definition compare_histograms (m : libm) (relative_difference : float → float → float)
    (decode : decoder) (file other_file : string)
    (aspect_fuzziness rms_error : float) : result bool :=
  match
    image ← create decode file;
    other_image ← create decode other_file;
    compare_image_histograms m relative_difference image other_image
      aspect_fuzziness rms_error
  with
  | Raise (IOError _) | Raise TypeError => Ok false
  | outcome => outcome
  end.

(** *** The search *)

(** A comparator, [Callable[[str, str, float, float], bool]]: a function
    of four parameters, [def compare(p1, p2, p3, p4)], taken as a pure
    function of its arguments.  [keywords] are the names of its third and
    of its fourth parameter, by which the pool passes the two thresholds;
    applying a comparator to four arguments is the call by position. *)
Record comparator : Type := {
  keywords : string * string;
  call :> string → string → float → float → bool
}.

(** How [partial(compare_images, aspect_fuzziness=..., rms_error=...)]
    binds the two thresholds when it is called with a pair of files: each
    goes to the parameter of its name.  The two files take the first two
    parameters, and the names of the parameters of a function are distinct,
    so that the call goes through exactly when the third and the fourth
    parameter bear the two names, in either order; otherwise it raises
    [TypeError] (an unexpected keyword, or two values for one parameter). *)
Definition bind_keywords (compare_images : comparator) (aspect_fuzziness rms_error : float)
    : result (float * float) :=
  if decide (keywords compare_images = ("aspect_fuzziness", "rms_error"))
  then Ok (aspect_fuzziness, rms_error)
  else if decide (keywords compare_images = ("rms_error", "aspect_fuzziness"))
  then Ok (rms_error, aspect_fuzziness)
  else Raise TypeError.

Definition call_partial (compare_images : comparator) (aspect_fuzziness rms_error : float)
    (file other_file : string) : result bool :=
  thresholds ← bind_keywords compare_images aspect_fuzziness rms_error;
  mret (compare_images file other_file thresholds.1 thresholds.2).

(** [files[files.index(file) + 1:]] *)
Definition files_after (files : list string) (file : string) : result (list string) :=
  i ← index file files; mret (drop (i + 1) files).

(** The candidate list of the parallel branch:
    [[(file, other_file) for file in files
                         for other_file in files[files.index(file) + 1:]]] *)
Definition candidates (files : list string) : result (list (string * string)) :=
  rows ← mapM (λ file,
    others ← files_after files file;
    mret (other_file ← others; [(file, other_file)])) files;
  mret (concat rows).

(** [pool_filter]: the comparator, with the two thresholds bound by name
    by [partial], is mapped over the candidates by the pool; a candidate is
    kept when the result zipped to it is true, and dropped when it is false
    or [None]. *)
Definition pool_filter (candidates : list (string * string))
    (compare_images : comparator) (aspect_fuzziness rms_error : float)
    (chunk_size : Z) : result (list (string * string)) :=
  results ← starmap
    (λ c : string * string, call_partial compare_images aspect_fuzziness rms_error c.1 c.2)
    candidates chunk_size;
  mret ('(c, keep) ← zip candidates results; if keep is Some true then [c] else []).

(** The sequential branch: the same two loops, with the comparator as the
    condition of the comprehension. *)
Definition similar_images_sequential (files : list string)
    (compare_images : comparator) (aspect_fuzziness rms_error : float)
    : result (list (string * string)) :=
  rows ← mapM (λ file,
    others ← files_after files file;
    mret (other_file ← others;
          if compare_images file other_file aspect_fuzziness rms_error
          then [(file, other_file)] else [])) files;
  mret (concat rows).

Definition similar_images (files : list string) (compare_images : comparator)
    (aspect_fuzziness rms_error : float) (parallel : bool) (chunk_size : Z)
    : result (list (string * string)) :=
  if parallel then
    candidates ← candidates files;
    pool_filter candidates compare_images aspect_fuzziness rms_error chunk_size
  else
    similar_images_sequential files compare_images aspect_fuzziness rms_error.

(** [args.chunk_size if args.chunk_size else CHUNK_SIZE], the chunk size the
    main program passes on: [--chunk-size] is an integer or, when the option
    is not given, [None]. *)
Definition chunk_size_argument (chunk_size : option Z) : Z :=
  match chunk_size with
  | Some n => if decide (n = 0%Z) then CHUNK_SIZE else n
  | None => CHUNK_SIZE
  end.

(** *** The actions *)

(** What an action needs of the system: the directory entry each path
    leads to, which entries may be removed, and whether the viewer [xv] can
    be started. *)
Record system : Type := {
  entry : string → string;
  may_remove : string → bool;
  xv_installed : bool
}.

(** An action on a pair, as it changes the set of the directory entries
    that are there. *)
Definition action : Type := string * string → gset string → result (gset string).

Definition delete_first (sys : system) : action :=
  λ pair, os_remove (entry sys) (may_remove sys) pair.1.

Definition delete_second (sys : system) : action :=
  λ pair, os_remove (entry sys) (may_remove sys) pair.2.

(** [call(["xv", "-nolim"] + [pic for pic in pair])]: the exit status of the
    viewer is not looked at; a viewer that cannot be started raises. *)
Definition view (sys : system) : action :=
  λ pair files, if xv_installed sys then Ok files else Raise (IOError "xv").

Definition none : action := λ pair files, Ok files.

Definition ACTIONS_ON_EQUALITY (sys : system) : list (string * action) :=
  [("delete_first", delete_first sys); ("delete_second", delete_second sys);
   ("view", view sys); ("none", none)].

(** [for pair in sorted(matches): action_equal(pair)] *)
Fixpoint for_each (action_equal : action) (pairs : list (string * string))
    (files : gset string) : result (gset string) :=
  match pairs with
  | [] => Ok files
  | p :: pairs' => files' ← action_equal p files; for_each action_equal pairs' files'
  end.

Definition act_on_matches (action_equal : action) (matches : list (string * string))
    (files : gset string) : result (gset string) :=
  for_each action_equal (sorted_pairs matches) files.

(** The sequential branch of [similar_images] with a comparator that reads
    and fills the cache and may raise, as [compare_exactly] does: the pairs
    are compared one after the other, in the order of the two loops, and the
    first exception ends the search. *)
Definition cached_comparator : Type := string → string → float → float → cached bool.

Definition lift {A} (r : result A) : cached A := λ c, (r, c).

Definition similar_images_sequential_cached (files : list string)
    (compare_images : cached_comparator) (aspect_fuzziness rms_error : float)
    : cached (list (string * string)) :=
  rows ← mapM (M := cached) (λ file,
    others ← lift (files_after files file);
    kept ← mapM (M := cached) (λ other_file,
      keep ← compare_images file other_file aspect_fuzziness rms_error;
      mret (if keep : bool then [(file, other_file)] else [])) others;
    mret (concat kept)) files;
  mret (concat rows).

(** The table of the comparison methods, by name.  [compare_histograms]
    uses no cache. *)
Definition COMPARISON_METHODS (os : file_system) (m : libm)
    (relative_difference : float → float → float) (decode : decoder)
    : list (string * cached_comparator) :=
  [("compare_exactly", compare_exactly os);
   ("compare_histograms",
    λ file other_file aspect_fuzziness rms_error,
      lift (compare_histograms m relative_difference decode file other_file
              aspect_fuzziness rms_error))].

(** [table[key]] for a table written as a dictionary display: a later entry
    with the same key overwrites an earlier one; [None] stands for
    [KeyError]. *)
Fixpoint table_get {A} (table : list (string * A)) (key : string) : option A :=
  match table with
  | [] => None
  | entry :: table' =>
      match table_get table' key with
      | Some value => Some value
      | None => if decide (entry.1 = key) then Some entry.2 else None
      end
  end.

End Duplicate.

Import Duplicate.

(** ** Notions the properties are stated with *)

(** A comparator that takes the two thresholds by the names [pool_filter]
    passes them by, as the third and the fourth argument. *)
Definition takes_keywords (compare_images : comparator) : Prop :=
  keywords compare_images = ("aspect_fuzziness", "rms_error").


(** A cache agrees with the file system when every stored answer is the one
    the file system gives: the files have not changed since they were
    read. *)
Definition cache_agrees (os : file_system) (c : cache) : Prop :=
  (∀ file size, sizes c !! file = Some size → getsize os file = Ok size)
  ∧ (∀ file digest, hashes c !! file = Some digest → md5_hexdigest os file = Ok digest).

(** The states of the cache a run goes through: empty at the start, then
    filled by the lookups. *)
Inductive reachable (os : file_system) : cache → Prop :=
  | reachable_empty : reachable os empty_cache
  | reachable_get_size file c : reachable os c → reachable os (get_size os file c).2
  | reachable_get_hash file c : reachable os c → reachable os (get_hash os file c).2.

(** What a lookup of the size, or of the hash, of a file yields in a given
    state of the cache. *)
Definition size_lookup (os : file_system) (c : cache) (file : string) : result Z :=
  match sizes c !! file with
  | Some size => Ok size
  | None => getsize os file
  end.

Definition hash_lookup (os : file_system) (c : cache) (file : string) : result string :=
  match hashes c !! file with
  | Some digest => Ok digest
  | None => md5_hexdigest os file
  end.

(** Whether two files have the same size and the same digest, read off the
    file system; false when one of them cannot be read. *)
Definition same_content (os : file_system) (file other_file : string) : bool :=
  match getsize os file, getsize os other_file,
        md5_hexdigest os file, md5_hexdigest os other_file with
  | Ok size, Ok size', Ok digest, Ok digest' =>
      bool_decide (size = size' ∧ digest = digest')
  | _, _, _, _ => false
  end.

(** [compare_exactly] on files that stay as they are, as a function of its
    arguments: whether the two files have the same size and digest. *)
Definition exact_comparator (os : file_system) : comparator := {|
  keywords := ("aspect_fuzziness", "rms_error");
  call := λ file other_file _ _, same_content os file other_file
|}.

(** The pairs the two loops of the search draw: the second file stands
    after the first occurrence of the first. *)
Definition drawn (files : list string) (file other_file : string) : Prop :=
  ∃ i, index file files = Ok i ∧ other_file ∈ drop (i + 1) files.

(** Two outcomes are alike when both are the same value or both are
    exceptions. *)
Definition alike {A} (r1 r2 : result A) : Prop :=
  match r1, r2 with
  | Ok a1, Ok a2 => a1 = a2
  | Raise _, Raise _ => True
  | _, _ => False
  end.

(** The root-mean-square deviation of two histograms in the words of the
    specification: for each bucket index the squared difference of the two
    bucket values, averaged over all buckets, and the square root of that.
    The numbers are binary64 floats: the square of a difference is the
    second power the library of the platform gives for its magnitude, and
    the squares are added in the order of the bucket indices. *)
Definition squared (m : libm) (x : float) : float := (pow_2 m (abs x)).1.

Fixpoint sum_over_buckets (buckets : nat) (value : nat → float) : float :=
  match buckets with
  | 0 => 0%float
  | S i => (sum_over_buckets i value + value i)%float
  end.

Definition rms_deviation (m : libm) (hist other_hist : list float) : float :=
  let buckets := length hist in
  PrimFloat.sqrt
    (sum_over_buckets buckets (λ i, squared m (nth i hist 0 - nth i other_hist 0)%float)
     / of_uint63 (Uint63.of_Z (Z.of_nat buckets))).

(** The same image with other histogram data. *)
Definition with_histogram (image : ImageWrapper) (hist : list float) : ImageWrapper :=
  {| width := width image; height := height image; histogram := hist |}.

(** A float that is an infinity or a NaN. *)
Definition not_finite (x : float) : Prop :=
  match Prim2SF x with
  | S754_infinity _ | S754_nan => True
  | _ => False
  end.

(** A float that is not below zero: a zero, a positive number, the positive
    infinity or a NaN; and one that, moreover, is not the negative zero. *)
Definition SF_not_negative (x : spec_float) : Prop :=
  match x with
  | S754_infinity true | S754_finite true _ _ => False
  | _ => True
  end.

Definition SF_positive_sign (x : spec_float) : Prop :=
  match x with
  | S754_zero true | S754_infinity true | S754_finite true _ _ => False
  | _ => True
  end.

Definition not_negative (x : float) : Prop := SF_not_negative (Prim2SF x).

(** A library whose second power is as the C standard (Annex F) has it: a
    NaN gives a NaN, an infinity the positive infinity, a zero the positive
    zero and 1 gives 1; the second power has no domain error, and a range
    error is reported only with a result that is zero (underflow), infinite
    (overflow) or a NaN. *)
Record conforming (m : libm) : Prop := {
  pow_nan : (pow_2 m nan).1 = nan;
  pow_infinity : (pow_2 m infinity).1 = infinity;
  pow_zero : (pow_2 m 0).1 = 0%float;
  pow_one : (pow_2 m 1).1 = 1%float;
  pow_no_domain_error : ∀ x, (pow_2 m x).2 ≠ EDOM;
  pow_range_error : ∀ x,
    (pow_2 m x).2 = ERANGE →
    ((pow_2 m x).1 =? 0)%float = true ∨ not_finite (pow_2 m x).1
}.

(** The directories a scan of [dir_name] lists: [dir_name] without its
    trailing slashes, and every directory among the entries of a directory
    it lists. *)
Inductive scanned (os : directories) (dir_name : string) : string → Prop :=
  | scanned_root : scanned os dir_name (rstrip_slash dir_name)
  | scanned_sub dir names name :
      scanned os dir_name dir →
      listdir os dir = Ok names → name ∈ names →
      isdir os (os_path_join dir name) = true →
      scanned os dir_name (rstrip_slash (os_path_join dir name)).

(** What stands before the name of an entry in its path. *)
Definition child_prefix (dir : string) : string :=
  if decide (dir = "") then "" else dir +:+ "/".

(** The rest of a path after the name of an entry: nothing, or a separator
    and more. *)
Definition path_rest (rest : string) : Prop :=
  rest = "" ∨ starts_with_slash rest = true.

(** The names a listing gives are distinct, not empty and without a
    slash. *)
Fixpoint has_slash (s : string) : bool :=
  match s with
  | "" => false
  | String a s' => bool_decide (a = "/"%char) || has_slash s'
  end.

Definition proper_names (os : directories) : Prop :=
  ∀ dir names, listdir os dir = Ok names →
    NoDup names ∧ ∀ name, name ∈ names → name ≠ "" ∧ has_slash name = false.

(** The directories below [dir] nest less than [n] deep. *)
Fixpoint depth_below (os : directories) (n : nat) (dir : string) : Prop :=
  match n with
  | 0 => False
  | S n' =>
      ∀ names, listdir os dir = Ok names →
        ∀ name, name ∈ names → isdir os (os_path_join dir name) = true →
          depth_below os n' (rstrip_slash (os_path_join dir name))
  end.

(** *** Example data *)

(** A directory of photos with a subdirectory. *)
Definition example_directories : directories := {|
  listdir := λ dir,
    if decide (dir = "photos") then Ok ["a.jpg"; "notes.txt"; "sub"]
    else if decide (dir = "photos/sub") then Ok ["b.jpg"; "readme"]
    else Raise (IOError dir);
  isdir := λ path, bool_decide (path = "photos" ∨ path = "photos/sub");
  isfile := λ path,
    bool_decide (path ∈ ["photos/a.jpg"; "photos/notes.txt";
                         "photos/sub/b.jpg"; "photos/sub/readme"])
|}.

Definition is_jpg (path : string) : bool :=
  bool_decide (path ∈ ["photos/a.jpg"; "photos/sub/b.jpg"]).


(** A 100×100 image and a 200×200 one with nearly the same histogram. *)
Definition small_image : ImageWrapper :=
  {| width := 100; height := 100; histogram := [1; 2; 3]%float |}.

Definition large_image : ImageWrapper :=
  {| width := 200; height := 200; histogram := [1; 2; 5]%float |}.

(** A library whose second power is the rounded product [x * x], with a
    range error where a finite [x] has an infinite square. *)
Definition rounded_libm : libm := {|
  pow_2 := λ x,
    let y := (x * x)%float in
    (y, if is_infinity y && negb (is_infinity x) then ERANGE else no_error)
|}.

(** A library that differs from it at one argument, where its second power
    is one unit in the last place below the rounded product, as the power
    function of glibc 2.36 is. *)
Definition last_place_libm : libm := {|
  pow_2 := λ x,
    if (x =? 0x1.ed8d8df29c6a3p-1)%float then (0x1.dbc5417f0d333p-1%float, no_error)
    else pow_2 rounded_libm x
|}.

(** Two images of the same shape whose histograms differ in one bucket. *)
Definition dark_image : ImageWrapper :=
  {| width := 100; height := 100; histogram := [0x1.ed8d8df29c6a3p-1; 0]%float |}.

Definition black_image : ImageWrapper :=
  {| width := 100; height := 100; histogram := [0; 0]%float |}.

(** One way to measure by how much two ratios differ. *)
Definition example_difference (a b : float) : float := (abs (a - b) / b)%float.

(** A directory with two images and a corrupt file with an image extension. *)
Definition example_decoder : decoder := λ file,
  if decide (file = "a.jpg") then inr small_image
  else if decide (file = "b.jpg") then inr large_image
  else if decide (file = "corrupt.jpg") then inl bad_format
  else inl io_error.

(** Two files with the same three bytes and a third, longer one. *)
Definition example_file_system : file_system := {|
  getsize := λ file,
    if decide (file = "a.jpg") then Ok 3%Z
    else if decide (file = "b.jpg") then Ok 3%Z
    else if decide (file = "c.jpg") then Ok 7%Z
    else Raise (IOError file);
  md5_hexdigest := λ file,
    if decide (file = "a.jpg") then Ok "900150983cd24fb0d6963f7d28e17f72"
    else if decide (file = "b.jpg") then Ok "900150983cd24fb0d6963f7d28e17f72"
    else if decide (file = "c.jpg") then Ok "7ac66c0f148de9519b8bd264312c4d64"
    else Raise (IOError file)
|}.

(** The row of candidates one file contributes, and the part of it a
    comparator keeps. *)
Definition row (files : list string) (file : string) : result (list (string * string)) :=
  others ← files_after files file;
  mret (other_file ← others; [(file, other_file)]).

Definition kept_row (keep : string → string → bool) (files : list string) (file : string)
    : result (list (string * string)) :=
  others ← files_after files file;
  mret (other_file ← others; if keep file other_file then [(file, other_file)] else []).

(** ** Properties of the search *)

(** *** [index] and the slice after it *)

Lemma index_elem_of (x : string) (l : list string) :
  x ∈ l → ∃ i, index x l = Ok i.
Proof.
  induction l as [|y l IH]; intros Hx.
  - by apply elem_of_nil in Hx.
  - simpl. destruct (decide (y = x)) as [->|Hne]; [by eexists|].
    apply elem_of_cons in Hx as [->|Hx]; [done|].
    destruct (IH Hx) as [i ->]. by eexists.
Qed.

Lemma index_first (x : string) (l : list string) (i : nat) :
  index x l = Ok i → l !! i = Some x ∧ ∀ j, j < i → l !! j ≠ Some x.
Proof.
  revert i. induction l as [|y l IH]; intros i; simpl; [done|].
  destruct (decide (y = x)) as [->|Hne].
  - intros [= <-]. split; [done|]. lia.
  - destruct (index x l) as [k|e] eqn:Hk; simpl; [|done].
    intros [= <-]. destruct (IH k eq_refl) as [Hl Hmin]. split; [done|].
    intros [|j] Hj; simpl; [congruence|]. apply Hmin. lia.
Qed.

Lemma index_app_fresh (x : string) (pre sub : list string) :
  x ∉ pre → index x (pre ++ x :: sub) = Ok (length pre).
Proof.
  induction pre as [|y pre IH]; intros Hx; simpl.
  - by rewrite decide_True.
  - apply not_elem_of_cons in Hx as [Hne Hx].
    rewrite decide_False by done. by rewrite IH.
Qed.

Lemma files_after_app_fresh (x : string) (pre sub : list string) :
  x ∉ pre → files_after (pre ++ x :: sub) x = Ok sub.
Proof.
  intros Hx. unfold files_after. rewrite index_app_fresh by done. simpl.
  f_equal. rewrite cons_middle, (assoc_L (++)).
  apply drop_app_length'. rewrite length_app. simpl. lia.
Qed.

Lemma files_after_elem_of (files : list string) (file : string) :
  file ∈ files → ∃ others, files_after files file = Ok others.
Proof.
  intros Hin. destruct (index_elem_of _ _ Hin) as [i Hi].
  unfold files_after. rewrite Hi. by eexists.
Qed.

(** *** What the pool returns *)

Lemma get_tasks_fuel_concat {A} (fuel size : nat) (l : list A) :
  0 < size → length l ≤ fuel → concat (get_tasks_fuel fuel size l) = l.
Proof.
  intros Hsize. revert l. induction fuel as [|fuel IH]; intros l Hlen.
  - destruct l; [done|]. simpl in Hlen. lia.
  - destruct l as [|a l]; [done|].
    change (get_tasks_fuel (S fuel) size (a :: l))
      with (take size (a :: l) :: get_tasks_fuel fuel size (drop size (a :: l))).
    simpl concat. rewrite IH.
    + apply take_drop.
    + rewrite length_drop. simpl in *. lia.
Qed.

Lemma get_tasks_concat {A} (size : Z) (l : list A) :
  (0 < size)%Z → concat (get_tasks size l) = l.
Proof. intros Hsize. apply get_tasks_fuel_concat; lia. Qed.

Lemma mapM_result_cons {A B} (f : A → result B) (x : A) (l : list A) :
  mapM f (x :: l) = y ← f x; k ← mapM f l; mret (y :: k).
Proof. reflexivity. Qed.

Lemma mapM_result_pure {A B} (f : A → result B) (g : A → B) (l : list A) :
  (∀ a, f a = Ok (g a)) → mapM f l = Ok (g <$> l).
Proof.
  intros Hf. induction l as [|a l IH]; [done|].
  by rewrite mapM_result_cons, Hf, IH.
Qed.

(** With a positive chunk size and calls that return, the pool returns what
    a plain map returns. *)
Lemma starmap_pure {A B} (func : A → result B) (g : A → B) (iterable : list A)
    (chunksize : Z) :
  (∀ a, func a = Ok (g a)) → (0 < chunksize)%Z →
  starmap func iterable chunksize = Ok (Some ∘ g <$> iterable).
Proof.
  intros Hfunc Hsize. unfold starmap. rewrite decide_True by done.
  rewrite (mapM_result_pure _ (fmap g)) by (intros chunk; by apply mapM_result_pure).
  simpl. unfold mret, result_ret. f_equal.
  rewrite <- (get_tasks_concat chunksize iterable Hsize) at 2.
  rewrite list_fmap_compose. f_equal.
  generalize (get_tasks chunksize iterable). intros tasks.
  induction tasks as [|t tasks IH]; [done|].
  rewrite fmap_cons, !concat_cons, fmap_app. by f_equal.
Qed.

(** Calls that raise make the map raise, as soon as there is an item. *)
Lemma starmap_raise {A B} (func : A → result B) (e : exn) (a : A) (iterable : list A)
    (chunksize : Z) :
  (∀ a, func a = Raise e) → (0 < chunksize)%Z →
  starmap func (a :: iterable) chunksize = Raise e.
Proof.
  intros Hfunc Hsize. unfold starmap, get_tasks. rewrite decide_True by done.
  destruct (Z.to_nat chunksize) as [|size] eqn:Hnat; [lia|].
  simpl. by rewrite Hfunc.
Qed.

Lemma zip_kept {A} (keep : A → bool) (l : list A) :
  ('(c, kept) ← zip l (Some ∘ keep <$> l); if kept is Some true then [c] else [])
  = filter (λ c, keep c) l.
Proof.
  induction l as [|a l IH]; [done|].
  rewrite filter_cons, <- IH. csimpl. by destruct (keep a).
Qed.

Lemma zip_none {A} (l : list A) :
  ('(c, kept) ← zip l (replicate (length l) (@None bool));
   if kept is Some true then [c] else []) = [].
Proof. induction l as [|a l IH]; [done|]. csimpl. by rewrite IH. Qed.

(** What [pool_filter] returns, case by case. *)
Lemma pool_filter_cases candidates (compare_images : comparator)
    aspect_fuzziness rms_error chunk_size :
  pool_filter candidates compare_images aspect_fuzziness rms_error chunk_size
  = if decide (0 < chunk_size)%Z then
      match bind_keywords compare_images aspect_fuzziness rms_error with
      | Ok thresholds =>
          Ok (filter (λ c, compare_images c.1 c.2 thresholds.1 thresholds.2) candidates)
      | Raise e => if decide (candidates = []) then Ok [] else Raise e
      end
    else Ok [].
Proof.
  unfold pool_filter. destruct (decide (0 < chunk_size)%Z) as [Hsize|Hsize].
  - destruct (bind_keywords _ _ _) as [thresholds|e] eqn:Hbind.
    + rewrite (starmap_pure _
        (λ c, compare_images c.1 c.2 thresholds.1 thresholds.2)); [|intros c|done].
      * simpl. unfold mret, result_ret. f_equal. apply zip_kept.
      * unfold call_partial. by rewrite Hbind.
    + destruct candidates as [|c candidates].
      * unfold starmap. by rewrite decide_True.
      * rewrite decide_False by done. rewrite (starmap_raise _ e); [done| |done].
        intros c'. unfold call_partial. by rewrite Hbind.
  - unfold starmap. rewrite decide_False by done. simpl.
    unfold mret, result_ret. f_equal. apply zip_none.
Qed.

Lemma pool_filter_filter candidates (compare_images : comparator)
    aspect_fuzziness rms_error chunk_size :
  (0 < chunk_size)%Z → takes_keywords compare_images →
  pool_filter candidates compare_images aspect_fuzziness rms_error chunk_size
  = Ok (filter (λ c, compare_images c.1 c.2 aspect_fuzziness rms_error) candidates).
Proof.
  intros Hsize Hnames. rewrite pool_filter_cases, decide_True by done.
  unfold bind_keywords. by rewrite decide_True.
Qed.

(** *** The two branches of [similar_images] *)

Lemma row_eq files file others :
  files_after files file = Ok others → row files file = Ok (pair file <$> others).
Proof.
  intros Ho. unfold row. rewrite Ho. simpl. unfold mret, result_ret. f_equal.
Qed.

Lemma kept_row_filter keep files file :
  kept_row keep files file = filter (λ c, keep c.1 c.2) <$> row files file.
Proof.
  unfold kept_row, row. destruct (files_after files file) as [others|e]; [|done].
  simpl. f_equal. induction others as [|o others IH]; [done|].
  csimpl. rewrite IH, filter_cons. simpl. by destruct (keep file o).
Qed.

Lemma mapM_kept_row keep files sub :
  mapM (kept_row keep files) sub
  = fmap (M := list) (filter (λ c, keep c.1 c.2)) <$> mapM (row files) sub.
Proof.
  induction sub as [|file sub IH]; [done|].
  rewrite !mapM_result_cons, kept_row_filter, IH.
  destruct (row files file) as [r|e]; [|done]. simpl.
  by destruct (mapM (row files) sub).
Qed.

Lemma filter_concat {A} (P : A → Prop) `{!∀ x, Decision (P x)} (rows : list (list A)) :
  filter P (concat rows) = concat (filter P <$> rows).
Proof.
  induction rows as [|r rows IH]; [done|].
  simpl. by rewrite filter_app, IH.
Qed.

Lemma similar_images_sequential_filter files compare_images aspect_fuzziness rms_error :
  similar_images_sequential files compare_images aspect_fuzziness rms_error
  = filter (λ c, compare_images c.1 c.2 aspect_fuzziness rms_error) <$> candidates files.
Proof.
  unfold similar_images_sequential, candidates.
  change (mapM _ files ≫= _) with
    (mapM (kept_row (λ a b, compare_images a b aspect_fuzziness rms_error) files) files
       ≫= λ rows, mret (concat rows)) at 1.
  change (mapM _ files ≫= _) with
    (mapM (row files) files ≫= λ rows, mret (concat rows)) at 2.
  rewrite mapM_kept_row. destruct (mapM (row files) files) as [rows|e]; [|done].
  simpl. unfold mret, result_ret. f_equal. symmetry. apply filter_concat.
Qed.

(** Both branches keep, in their order, the candidates the comparator
    accepts: the sequential one always, the parallel one when the chunk size
    is positive and the comparator takes the thresholds by their names. *)
Lemma similar_images_filter files (compare_images : comparator)
    aspect_fuzziness rms_error parallel chunk_size :
  (parallel = true → (0 < chunk_size)%Z ∧ takes_keywords compare_images) →
  similar_images files compare_images aspect_fuzziness rms_error parallel chunk_size
  = filter (λ c, compare_images c.1 c.2 aspect_fuzziness rms_error) <$> candidates files.
Proof.
  intros Hpool. destruct parallel; simpl.
  - destruct Hpool as [Hsize Hnames]; [done|].
    destruct (candidates files) as [cs|e]; [|done]. simpl.
    by apply pool_filter_filter.
  - apply similar_images_sequential_filter.
Qed.

(** *** The candidates of a list of files *)

Lemma mapM_row_total files sub :
  sub ⊆ files → ∃ rows, mapM (row files) sub = Ok rows.
Proof.
  induction sub as [|file sub IH]; intros Hsub; [by eexists|].
  destruct (files_after_elem_of files file) as [others Ho]; [set_solver|].
  destruct IH as [rows Hrows]; [set_solver|].
  rewrite mapM_result_cons, (row_eq _ _ _ Ho), Hrows. by eexists.
Qed.

Lemma candidates_total files : ∃ pairs, candidates files = Ok pairs.
Proof.
  destruct (mapM_row_total files files) as [rows Hrows]; [done|].
  unfold candidates. fold (row files). rewrite Hrows. by eexists.
Qed.



(** *** The pairs of a list without repetition *)









(** *** A list that names a path twice *)

Lemma mapM_result_elem_of {A B} (f : A → result B) (l : list A) (rows : list B) x r :
  mapM f l = Ok rows → x ∈ l → f x = Ok r → r ∈ rows.
Proof.
  revert rows. induction l as [|y l IH]; intros rows Hrows Hx Hr.
  - by apply elem_of_nil in Hx.
  - rewrite mapM_result_cons in Hrows.
    destruct (f y) as [ry|e] eqn:Hy; [|done]. simpl in Hrows.
    destruct (mapM f l) as [rs|e]; [|done]. simpl in Hrows.
    injection Hrows as <-. apply elem_of_cons in Hx as [->|Hx].
    + replace ry with r by congruence. by left.
    + right. by apply IH.
Qed.

Lemma elem_of_concat {A} (x : A) (r : list A) (rows : list (list A)) :
  x ∈ r → r ∈ rows → x ∈ concat rows.
Proof.
  intros Hx. induction 1 as [r rows|r r' rows _ IH]; simpl; apply elem_of_app.
  - by left.
  - right. by apply IH.
Qed.

(** Whenever a path stands at two positions of the list, the path paired
    with itself is among the candidates. *)
Lemma repeated_path_self_pair (files : list string) (x : string) (i j : nat) :
  files !! i = Some x → files !! j = Some x → i < j →
  ∃ pairs, candidates files = Ok pairs ∧ (x, x) ∈ pairs.
Proof.
  intros Hi Hj Hij.
  assert (x ∈ files) as Hx by (apply list_elem_of_lookup; eauto).
  destruct (index_elem_of x files Hx) as [k Hk].
  destruct (index_first x files k Hk) as [_ Hmin].
  assert (k ≤ i) as Hki.
  { destruct (decide (k ≤ i)); [done|]. destruct (Hmin i); [lia|done]. }
  destruct (mapM_row_total files files) as [rows Hrows]; [done|].
  exists (concat rows). split.
  - unfold candidates. fold (row files). by rewrite Hrows.
  - apply (elem_of_concat _ (pair x <$> drop (k + 1) files)).
    + apply list_elem_of_fmap_2, list_elem_of_lookup. exists (j - (k + 1)).
      rewrite lookup_drop. by replace (k + 1 + (j - (k + 1))) with j by lia.
    + eapply mapM_result_elem_of; [done..|].
      apply row_eq. unfold files_after. by rewrite Hk.
Qed.

(** ** The claims about the search *)



(** A list of two files or more has a candidate. *)
Lemma candidates_two_files (files : list string) :
  1 < length files → ∃ c cs, candidates files = Ok (c :: cs).
Proof.
  intros Hlen. destruct files as [|a [|b files]]; [simpl in Hlen; lia..|].
  destruct (mapM_row_total (a :: b :: files) (b :: files)) as [rows Hrows].
  { intros x Hx. by right. }
  exists (a, b), ((pair a <$> files) ++ concat rows).
  unfold candidates. fold (row (a :: b :: files)).
  rewrite mapM_result_cons, (row_eq _ _ (b :: files)), Hrows; [done|].
  apply (files_after_app_fresh a [] (b :: files)), not_elem_of_nil.
Qed.

(** C2: with a chunk size of zero or below the parallel mode returns no
    match at all, whatever the files and the comparator, where the
    sequential mode returns the matches: for two files of the same content
    the one pair of them.  The main program passes a negative
    [--chunk-size] on as it is. *)
Theorem parallel_chunk_size_not_positive :
  (∀ files (compare_images : comparator) aspect_fuzziness rms_error chunk_size,
     (chunk_size ≤ 0)%Z →
     similar_images files compare_images aspect_fuzziness rms_error true chunk_size = Ok [])
  ∧ similar_images ["a.jpg"; "b.jpg"] (exact_comparator example_file_system)
      0x1.999999999999ap-5 0x1.0624dd2f1a9fcp-10 false (-1)
    = Ok [("a.jpg", "b.jpg")]
  ∧ similar_images ["a.jpg"; "b.jpg"] (exact_comparator example_file_system)
      0x1.999999999999ap-5 0x1.0624dd2f1a9fcp-10 true (-1)
    = Ok []
  ∧ chunk_size_argument (Some (-1)%Z) = (-1)%Z.
Proof.
  split_and!; [|done..].
  intros files compare_images aspect_fuzziness rms_error chunk_size Hsize. simpl.
  destruct (candidates_total files) as [pairs ->]. simpl.
  rewrite pool_filter_cases. by rewrite decide_False by lia.
Qed.

(** C9: the parallel mode passes the two thresholds by name, the sequential
    one by position.  For a comparator whose third and fourth parameter
    have other names the parallel mode raises [TypeError] as soon as there
    are two files, where the sequential mode returns its list; for one that
    names them in the other order the two modes call it with the
    thresholds exchanged and return different lists. *)
Theorem parallel_passes_thresholds_by_name :
  (∀ files (compare_images : comparator) aspect_fuzziness rms_error chunk_size,
     1 < length files → (0 < chunk_size)%Z →
     keywords compare_images ≠ ("aspect_fuzziness", "rms_error") →
     keywords compare_images ≠ ("rms_error", "aspect_fuzziness") →
     similar_images files compare_images aspect_fuzziness rms_error true chunk_size
     = Raise TypeError)
  ∧ similar_images ["a.jpg"; "b.jpg"]
      {| keywords := ("fuzziness", "rms"); call := exact_comparator example_file_system |}
      0x1.999999999999ap-5 0x1.0624dd2f1a9fcp-10 false CHUNK_SIZE
    = Ok [("a.jpg", "b.jpg")]
  ∧ similar_images ["a.jpg"; "b.jpg"]
      {| keywords := ("fuzziness", "rms"); call := exact_comparator example_file_system |}
      0x1.999999999999ap-5 0x1.0624dd2f1a9fcp-10 true CHUNK_SIZE
    = Raise TypeError
  ∧ similar_images ["a.jpg"; "b.jpg"]
      {| keywords := ("rms_error", "aspect_fuzziness");
         call := λ _ _ third fourth, (third <? fourth)%float |}
      0x1.999999999999ap-5 0x1.0624dd2f1a9fcp-10 false CHUNK_SIZE
    = Ok []
  ∧ similar_images ["a.jpg"; "b.jpg"]
      {| keywords := ("rms_error", "aspect_fuzziness");
         call := λ _ _ third fourth, (third <? fourth)%float |}
      0x1.999999999999ap-5 0x1.0624dd2f1a9fcp-10 true CHUNK_SIZE
    = Ok [("a.jpg", "b.jpg")].
Proof.
  split_and!; [|done..].
  intros files compare_images aspect_fuzziness rms_error chunk_size Hlen Hsize Hne Hne'.
  simpl. destruct (candidates_two_files files Hlen) as (c & cs & ->). simpl.
  rewrite pool_filter_cases, decide_True by done.
  unfold bind_keywords. by rewrite !decide_False by done.
Qed.

(** C6: on a list that names a path twice the search pairs the path with
    itself, and draws a pair of files more than once. *)
Theorem repeated_path_paired_with_itself :
  candidates ["a.jpg"; "a.jpg"] = Ok [("a.jpg", "a.jpg"); ("a.jpg", "a.jpg")]
  ∧ (∀ parallel,
       similar_images ["a.jpg"; "a.jpg"]
         {| keywords := ("aspect_fuzziness", "rms_error");
            call := λ file other_file _ _, bool_decide (file = other_file) |}
         0x1.999999999999ap-5 0x1.0624dd2f1a9fcp-10 parallel CHUNK_SIZE
       = Ok [("a.jpg", "a.jpg"); ("a.jpg", "a.jpg")])
  ∧ candidates ["a.jpg"; "b.jpg"; "a.jpg"]
    = Ok [("a.jpg", "b.jpg"); ("a.jpg", "a.jpg"); ("b.jpg", "a.jpg");
          ("a.jpg", "b.jpg"); ("a.jpg", "a.jpg")].
Proof.
  split_and!; [done| |done]. by intros [].
Qed.

(** ** Properties of the attribute cache and of the exact comparator *)

Lemma cached_bind_unfold {A B} (m : cached A) (k : A → cached B) (c : cache) :
  (m ≫= k) c
  = match m c with
    | (Ok a, c') => k a c'
    | (Raise e, c') => (Raise e, c')
    end.
Proof. reflexivity. Qed.

Lemma get_size_result os file c : (get_size os file c).1 = size_lookup os c file.
Proof.
  unfold get_size, size_lookup.
  destruct (sizes c !! file); [done|]. by destruct (getsize os file).
Qed.

Lemma get_hash_result os file c : (get_hash os file c).1 = hash_lookup os c file.
Proof.
  unfold get_hash, hash_lookup.
  destruct (hashes c !! file); [done|]. by destruct (md5_hexdigest os file).
Qed.

(** Filling the cache changes no later answer. *)
Lemma get_size_size_lookup os file c other :
  size_lookup os (get_size os file c).2 other = size_lookup os c other.
Proof.
  unfold get_size, size_lookup.
  destruct (sizes c !! file) eqn:Hc; [done|].
  destruct (getsize os file) eqn:Hos; [|done]. simpl.
  destruct (decide (file = other)) as [<-|Hne].
  - by rewrite lookup_insert_eq, Hc.
  - by rewrite lookup_insert_ne.
Qed.

Lemma get_size_hash_lookup os file c other :
  hash_lookup os (get_size os file c).2 other = hash_lookup os c other.
Proof.
  unfold get_size, hash_lookup.
  destruct (sizes c !! file); [done|]. by destruct (getsize os file).
Qed.

Lemma get_hash_hash_lookup os file c other :
  hash_lookup os (get_hash os file c).2 other = hash_lookup os c other.
Proof.
  unfold get_hash, hash_lookup.
  destruct (hashes c !! file) eqn:Hc; [done|].
  destruct (md5_hexdigest os file) eqn:Hos; [|done]. simpl.
  destruct (decide (file = other)) as [<-|Hne].
  - by rewrite lookup_insert_eq, Hc.
  - by rewrite lookup_insert_ne.
Qed.

Lemma get_hash_size_lookup os file c other :
  size_lookup os (get_hash os file c).2 other = size_lookup os c other.
Proof.
  unfold get_hash, size_lookup.
  destruct (hashes c !! file); [done|]. by destruct (md5_hexdigest os file).
Qed.

Lemma get_size_agrees os file c :
  cache_agrees os c → cache_agrees os (get_size os file c).2.
Proof.
  intros [Hs Hh]. unfold get_size.
  destruct (sizes c !! file) eqn:Hc; [done|].
  destruct (getsize os file) eqn:Hos; [|done].
  split; [|done]. intros f v. simpl.
  destruct (decide (file = f)) as [<-|Hne].
  - rewrite lookup_insert_eq. congruence.
  - rewrite lookup_insert_ne by done. apply Hs.
Qed.

Lemma get_hash_agrees os file c :
  cache_agrees os c → cache_agrees os (get_hash os file c).2.
Proof.
  intros [Hs Hh]. unfold get_hash.
  destruct (hashes c !! file) eqn:Hc; [done|].
  destruct (md5_hexdigest os file) eqn:Hos; [|done].
  split; [done|]. intros f v. simpl.
  destruct (decide (file = f)) as [<-|Hne].
  - rewrite lookup_insert_eq. congruence.
  - rewrite lookup_insert_ne by done. apply Hh.
Qed.

Lemma empty_cache_agrees os : cache_agrees os empty_cache.
Proof.
  split; intros file v Hlookup; simpl in Hlookup; by rewrite lookup_empty in Hlookup.
Qed.

(** As long as the files do not change, the cache agrees with them
    throughout a run. *)
Lemma reachable_agrees os c : reachable os c → cache_agrees os c.
Proof.
  induction 1 as [|file c _ IH|file c _ IH].
  - apply empty_cache_agrees.
  - by apply get_size_agrees.
  - by apply get_hash_agrees.
Qed.

Lemma size_lookup_agrees os c file size :
  cache_agrees os c → getsize os file = Ok size → size_lookup os c file = Ok size.
Proof.
  intros [Hs _] Hos. unfold size_lookup.
  destruct (sizes c !! file) as [v|] eqn:Hc; [|done].
  apply Hs in Hc. congruence.
Qed.

Lemma hash_lookup_agrees os c file digest :
  cache_agrees os c → md5_hexdigest os file = Ok digest →
  hash_lookup os c file = Ok digest.
Proof.
  intros [_ Hh] Hos. unfold hash_lookup.
  destruct (hashes c !! file) as [v|] eqn:Hc; [|done].
  apply Hh in Hc. congruence.
Qed.

(** The outcome of [compare_exactly], read off the four lookups in the
    state of the cache it starts from. *)
Lemma compare_exactly_result os file other_file aspect_fuzziness rms_error c :
  (compare_exactly os file other_file aspect_fuzziness rms_error c).1
  = (size_other ← size_lookup os c other_file;
     size_file ← size_lookup os c file;
     if bool_decide (size_other = size_file) then
       hash_file ← hash_lookup os c file;
       hash_other ← hash_lookup os c other_file;
       mret (bool_decide (hash_file = hash_other))
     else mret false).
Proof.
  unfold compare_exactly. rewrite cached_bind_unfold.
  rewrite <- (get_size_size_lookup os other_file c file).
  rewrite <- (get_size_hash_lookup os other_file c file).
  rewrite <- (get_size_hash_lookup os other_file c other_file).
  rewrite <- (get_size_result os other_file c).
  destruct (get_size os other_file c) as [[size_other|e] c1]; [|done]. simpl.
  rewrite cached_bind_unfold.
  rewrite <- (get_size_hash_lookup os file c1 file).
  rewrite <- (get_size_hash_lookup os file c1 other_file).
  rewrite <- (get_size_result os file c1).
  destruct (get_size os file c1) as [[size_file|e] c2]; [|done]. simpl.
  case_bool_decide; [|done].
  rewrite cached_bind_unfold.
  rewrite <- (get_hash_hash_lookup os file c2 other_file).
  rewrite <- (get_hash_result os file c2).
  destruct (get_hash os file c2) as [[hash_file|e] c3]; [|done]. simpl.
  rewrite cached_bind_unfold.
  rewrite <- (get_hash_result os other_file c3).
  by destruct (get_hash os other_file c3) as [[hash_other|e] c4].
Qed.

(** A comparison changes no later answer of the cache either. *)
Lemma compare_exactly_lookups os file other_file aspect_fuzziness rms_error c f :
  size_lookup os (compare_exactly os file other_file aspect_fuzziness rms_error c).2 f
  = size_lookup os c f
  ∧ hash_lookup os (compare_exactly os file other_file aspect_fuzziness rms_error c).2 f
    = hash_lookup os c f.
Proof.
  unfold compare_exactly. rewrite cached_bind_unfold.
  rewrite <- (get_size_size_lookup os other_file c f).
  rewrite <- (get_size_hash_lookup os other_file c f).
  destruct (get_size os other_file c) as [[size_other|e] c1]; [|done]. simpl.
  rewrite cached_bind_unfold.
  rewrite <- (get_size_size_lookup os file c1 f).
  rewrite <- (get_size_hash_lookup os file c1 f).
  destruct (get_size os file c1) as [[size_file|e] c2]; [|done]. simpl.
  case_bool_decide; [|done].
  rewrite cached_bind_unfold.
  rewrite <- (get_hash_size_lookup os file c2 f).
  rewrite <- (get_hash_hash_lookup os file c2 f).
  destruct (get_hash os file c2) as [[hash_file|e] c3]; [|done]. simpl.
  rewrite cached_bind_unfold.
  rewrite <- (get_hash_size_lookup os other_file c3 f).
  rewrite <- (get_hash_hash_lookup os other_file c3 f).
  by destruct (get_hash os other_file c3) as [[hash_other|e] c4].
Qed.

Lemma compare_exactly_agrees os file other_file aspect_fuzziness rms_error c :
  cache_agrees os c →
  cache_agrees os (compare_exactly os file other_file aspect_fuzziness rms_error c).2.
Proof.
  intros Hc. unfold compare_exactly. rewrite cached_bind_unfold.
  pose proof (get_size_agrees os other_file c Hc) as H1.
  destruct (get_size os other_file c) as [[size_other|e] c1]; [|done].
  rewrite cached_bind_unfold.
  pose proof (get_size_agrees os file c1 H1) as H2.
  destruct (get_size os file c1) as [[size_file|e] c2]; [|done].
  case_bool_decide; [|done].
  rewrite cached_bind_unfold.
  pose proof (get_hash_agrees os file c2 H2) as H3.
  destruct (get_hash os file c2) as [[hash_file|e] c3]; [|done].
  rewrite cached_bind_unfold.
  pose proof (get_hash_agrees os other_file c3 H3) as H4.
  by destruct (get_hash os other_file c3) as [[hash_other|e] c4].
Qed.

(** C3: when the size and the content of both files can be read,
    [compare_exactly] returns, and it returns true exactly when the two
    sizes are equal and the two digests are equal. *)
Theorem compare_exactly_iff_size_and_hash (os : file_system) (c : cache)
    (file other_file : string) (aspect_fuzziness rms_error : float)
    (size size' : Z) (digest digest' : string) :
  cache_agrees os c →
  getsize os file = Ok size → getsize os other_file = Ok size' →
  md5_hexdigest os file = Ok digest → md5_hexdigest os other_file = Ok digest' →
  ∃ equal,
    (compare_exactly os file other_file aspect_fuzziness rms_error c).1 = Ok equal
    ∧ (equal = true ↔ size = size' ∧ digest = digest')
    ∧ cache_agrees os (compare_exactly os file other_file aspect_fuzziness rms_error c).2.
Proof.
  intros Hc Hs Hs' Hd Hd'.
  exists (bool_decide (size = size' ∧ digest = digest')). split_and!.
  - rewrite compare_exactly_result.
    rewrite (size_lookup_agrees _ _ _ _ Hc Hs), (size_lookup_agrees _ _ _ _ Hc Hs').
    rewrite (hash_lookup_agrees _ _ _ _ Hc Hd), (hash_lookup_agrees _ _ _ _ Hc Hd').
    simpl. unfold mret, result_ret.
    destruct (decide (size = size')) as [<-|Hne].
    + rewrite (bool_decide_true (size = size)) by done.
      f_equal. apply bool_decide_ext. tauto.
    + rewrite (bool_decide_false (size' = size)) by done.
      f_equal. symmetry. apply bool_decide_eq_false. tauto.
  - by rewrite bool_decide_eq_true.
  - by apply compare_exactly_agrees.
Qed.


Lemma compare_exactly_iff_size_and_hash_witness :
  ∃ equal,
    (compare_exactly example_file_system "a.jpg" "b.jpg"
       0x1.999999999999ap-5 0x1.0624dd2f1a9fcp-10 empty_cache).1 = Ok equal
    ∧ (equal = true ↔
         3%Z = 3%Z
         ∧ "900150983cd24fb0d6963f7d28e17f72" = "900150983cd24fb0d6963f7d28e17f72")
    ∧ cache_agrees example_file_system
        (compare_exactly example_file_system "a.jpg" "b.jpg"
           0x1.999999999999ap-5 0x1.0624dd2f1a9fcp-10 empty_cache).2.
Proof.
  apply (compare_exactly_iff_size_and_hash example_file_system empty_cache
           "a.jpg" "b.jpg");
    [apply empty_cache_agrees|reflexivity..].
Defined.

(** C8: called on the same two files in the other order, [compare_exactly]
    returns the same boolean, or raises as well: from the same state of the
    cache, and also when the second call follows the first and finds the
    cache as the first left it. *)
Theorem compare_exactly_symmetric (os : file_system) (c : cache)
    (file other_file : string) (aspect_fuzziness rms_error : float) :
  alike (compare_exactly os file other_file aspect_fuzziness rms_error c).1
        (compare_exactly os other_file file aspect_fuzziness rms_error c).1
  ∧ alike (compare_exactly os file other_file aspect_fuzziness rms_error c).1
          (compare_exactly os other_file file aspect_fuzziness rms_error
             (compare_exactly os file other_file aspect_fuzziness rms_error c).2).1.
Proof.
  assert (alike (compare_exactly os file other_file aspect_fuzziness rms_error c).1
                (compare_exactly os other_file file aspect_fuzziness rms_error c).1) as Hsame.
  { rewrite !compare_exactly_result.
    destruct (size_lookup os c other_file) as [s'|e'], (size_lookup os c file) as [s|e];
      simpl; try done.
    repeat case_bool_decide; try done; try congruence.
    destruct (hash_lookup os c file) as [h|e], (hash_lookup os c other_file) as [h'|e'];
      simpl; try done.
    repeat case_bool_decide; congruence. }
  split; [done|].
  rewrite (compare_exactly_result os other_file file _ _ (_.2)).
  rewrite !(proj1 (compare_exactly_lookups os file other_file _ _ c _)).
  rewrite !(proj2 (compare_exactly_lookups os file other_file _ _ c _)).
  by rewrite <- (compare_exactly_result os other_file file aspect_fuzziness rms_error c).
Qed.

(** When neither file can be read, each order raises for the file it asks
    first. *)
Example both_missing :
  (compare_exactly example_file_system "x.jpg" "y.jpg"
     0x1.999999999999ap-5 0x1.0624dd2f1a9fcp-10 empty_cache).1 = Raise (IOError "y.jpg")
  ∧ (compare_exactly example_file_system "y.jpg" "x.jpg"
       0x1.999999999999ap-5 0x1.0624dd2f1a9fcp-10 empty_cache).1 = Raise (IOError "x.jpg").
Proof. by vm_compute. Qed.

(** C10: the two fuzziness arguments have no influence on [compare_exactly]:
    two runs that differ in them only return the same outcome and leave the
    same cache, and so does a second run that follows the first one. *)
Theorem compare_exactly_ignores_fuzziness (os : file_system) (c : cache)
    (file other_file : string)
    (aspect_fuzziness rms_error aspect_fuzziness' rms_error' : float) :
  compare_exactly os file other_file aspect_fuzziness rms_error c
  = compare_exactly os file other_file aspect_fuzziness' rms_error' c
  ∧ (compare_exactly os file other_file aspect_fuzziness' rms_error'
       (compare_exactly os file other_file aspect_fuzziness rms_error c).2).1
    = (compare_exactly os file other_file aspect_fuzziness rms_error c).1.
Proof.
  split; [reflexivity|].
  rewrite (compare_exactly_result os file other_file _ _ (_.2)).
  rewrite !(proj1 (compare_exactly_lookups os file other_file _ _ c _)).
  rewrite !(proj2 (compare_exactly_lookups os file other_file _ _ c _)).
  by rewrite <- (compare_exactly_result os file other_file aspect_fuzziness rms_error c).
Qed.

(** ** Properties of the histogram comparator *)

(** *** Binary64 comparisons and arithmetic *)

Ltac compare_cases :=
  repeat match goal with
  | |- context [(?a ?= ?b)%Z] => destruct (Z.compare_spec a b)
  | H : context [(?a ?= ?b)%Z] |- _ => destruct (Z.compare_spec a b)
  | |- context [PosDef.Pos.compare_cont Eq ?a ?b] =>
      change (PosDef.Pos.compare_cont Eq a b) with (a ?= b)%positive;
      destruct (Pos.compare_spec a b)
  | H : context [PosDef.Pos.compare_cont Eq ?a ?b] |- _ =>
      change (PosDef.Pos.compare_cont Eq a b) with (a ?= b)%positive in H;
      destruct (Pos.compare_spec a b)
  end.

Lemma SFltb_SFleb_trans x y z :
  SFltb x y = true → SFleb y z = true → SFltb x z = true.
Proof.
  unfold SFltb, SFleb.
  destruct x as [sx|sx| |sx mx ex], y as [sy|sy| |sy my ey], z as [sz|sz| |sz mz ez];
    simpl; try done;
    destruct sx; try done; destruct sy; try done; destruct sz; try done;
    compare_cases; simpl; try done; lia.
Qed.

Lemma ltb_leb_trans (x t t' : float) :
  (x <? t)%float = true → (t <=? t')%float = true → (x <? t')%float = true.
Proof. rewrite !FloatAxioms.ltb_spec, FloatAxioms.leb_spec. apply SFltb_SFleb_trans. Qed.

Lemma is_infinity_not_finite (y : float) : is_infinity y = true → not_finite y.
Proof.
  unfold is_infinity, not_finite. rewrite FloatAxioms.eqb_spec, FloatAxioms.abs_spec.
  change (Prim2SF infinity) with (S754_infinity false).
  by destruct (Prim2SF y) as [s|s| |s m e].
Qed.








(** *** Signs of binary64 results *)

Lemma binary_round_aux_sign prec emax mx ex lx :
  SF_positive_sign (binary_round_aux prec emax false mx ex lx).
Proof.
  unfold binary_round_aux.
  destruct (shr_fexp prec emax mx ex lx) as [mrs' e'].
  destruct (shr_fexp prec emax _ e' loc_Exact) as [mrs'' e''].
  destruct (shr_m mrs''); [done| |done]. by destruct (_ <=? _)%Z.
Qed.

Lemma binary_round_sign prec emax m e :
  SF_positive_sign (binary_round prec emax false m e).
Proof.
  unfold binary_round. destruct (shl_align _ _ _). apply binary_round_aux_sign.
Qed.

Lemma SF_positive_sign_not_negative x : SF_positive_sign x → SF_not_negative x.
Proof. by destruct x as [[]|[]| |[] ? ?]. Qed.

Lemma mul_self_not_negative (x : float) : not_negative (x * x).
Proof.
  unfold not_negative. rewrite FloatAxioms.mul_spec.
  destruct (Prim2SF x) as [s|s| |s m e]; try done; try by destruct s.
  unfold SF64mul, SFmul. replace (xorb s s) with false by by destruct s.
  apply SF_positive_sign_not_negative, binary_round_aux_sign.
Qed.

Lemma add_positive_sign (x y : float) :
  SF_positive_sign (Prim2SF x) → not_negative y → SF_positive_sign (Prim2SF (x + y)).
Proof.
  unfold not_negative. rewrite FloatAxioms.add_spec.
  destruct (Prim2SF x) as [sx|sx| |sx mx ex]; try done;
    destruct (Prim2SF y) as [sy|sy| |sy my ey]; try done;
    destruct sx; try done; destruct sy; try done.
  intros _ _. unfold SF64add, SFadd. simpl.
  apply binary_round_sign.
Qed.

Lemma sum_floats_positive_sign (xs : list float) :
  Forall not_negative xs → SF_positive_sign (Prim2SF (sum_floats xs)).
Proof.
  unfold sum_floats. assert (SF_positive_sign (Prim2SF 0)) as H0 by done.
  revert H0. generalize 0%float.
  induction xs as [|x xs IH]; intros acc Hacc Hxs; [done|].
  apply Forall_cons in Hxs as [Hx Hxs]. simpl. apply IH; [|done].
  by apply add_positive_sign.
Qed.

Lemma float_of_nat_positive_sign (n : nat) : SF_positive_sign (Prim2SF (float_of_nat n)).
Proof.
  unfold float_of_nat. rewrite FloatAxioms.of_uint63_spec.
  pose proof (Uint63.to_Z_bounded (Uint63.of_Z (Z.of_nat n))) as [Hnn _].
  destruct (Uint63.to_Z _) as [|m|m]; [done| |lia].
  apply binary_round_sign.
Qed.

Lemma div_not_negative (x y : float) :
  SF_positive_sign (Prim2SF x) → SF_positive_sign (Prim2SF y) → not_negative (x / y).
Proof.
  unfold not_negative. rewrite FloatAxioms.div_spec.
  destruct (Prim2SF x) as [sx|sx| |sx mx ex]; try done;
    destruct (Prim2SF y) as [sy|sy| |sy my ey]; try done;
    destruct sx; try done; destruct sy; try done.
  intros _ _. unfold SF64div, SFdiv.
  destruct (SFdiv_core_binary _ _ _ _ _ _) as [[mz ez] lz].
  apply SF_positive_sign_not_negative, binary_round_aux_sign.
Qed.

Lemma not_negative_ltb_zero (x : float) : not_negative x → (x <? 0)%float = false.
Proof.
  unfold not_negative. rewrite FloatAxioms.ltb_spec.
  change (Prim2SF 0) with (S754_zero false).
  by destruct (Prim2SF x) as [[]|[]| |[] ? ?].
Qed.

(** *** The special cases of the power *)

Lemma SFeqb_refl (x : spec_float) : x ≠ S754_nan → SFeqb x x = true.
Proof.
  unfold SFeqb. destruct x as [[]|[]| |[] m e]; simpl; try done;
    rewrite Z.compare_refl;
    change (PosDef.Pos.compare_cont Eq m m) with (m ?= m)%positive;
    by rewrite Pos.compare_refl.
Qed.


Lemma is_nan_eq (x : float) : is_nan x = true → x = nan.
Proof.
  unfold is_nan. rewrite FloatAxioms.eqb_spec. intros Hx.
  apply FloatAxioms.Prim2SF_inj. change (Prim2SF nan) with S754_nan.
  destruct (Prim2SF x) as [sx|sx| |sx mx ex] eqn:Hsf; [..|done|];
    by rewrite SFeqb_refl in Hx.
Qed.

Lemma is_infinity_abs (x : float) : is_infinity x = true → abs x = infinity.
Proof.
  unfold is_infinity. rewrite FloatAxioms.eqb_spec. intros Hx.
  apply FloatAxioms.Prim2SF_inj. revert Hx.
  change (Prim2SF infinity) with (S754_infinity false).
  by destruct (Prim2SF (abs x)) as [[]|[]| |[] ? ?].
Qed.





(** *** The deviations *)










(** *** The example libraries *)

Lemma rounded_libm_conforming : conforming rounded_libm.
Proof.
  split; try done.
  - intros x. simpl. by destruct (_ && _).
  - intros x. simpl. destruct (is_infinity (x * x)) eqn:Hinf; [|done].
    intros _. right. by apply is_infinity_not_finite.
Qed.

Lemma last_place_libm_not_negative (x : float) : not_negative (pow_2 last_place_libm x).1.
Proof.
  unfold last_place_libm. simpl.
  destruct (x =? _)%float; [done|]. apply mul_self_not_negative.
Qed.

Lemma last_place_libm_conforming : conforming last_place_libm.
Proof.
  split; try done.
  - intros x. unfold last_place_libm. simpl.
    destruct (x =? _)%float; [done|]. simpl. by destruct (_ && _).
  - intros x. unfold last_place_libm. simpl.
    destruct (x =? _)%float; [done|]. simpl.
    destruct (is_infinity (x * x)) eqn:Hinf; [|done].
    intros _. right. by apply is_infinity_not_finite.
Qed.

(** ** The claims about the histogram comparator *)

(** C4: when the decoding of either file fails, [compare_histograms] returns
    false for the pair; nothing is raised. *)
Theorem compare_histograms_decode_failure
    (m : libm) (relative_difference : float → float → float) (decode : decoder)
    (file other_file : string) (aspect_fuzziness rms_error : float) :
  (∃ err, decode file = inl err) ∨ (∃ err, decode other_file = inl err) →
  compare_histograms m relative_difference decode file other_file
    aspect_fuzziness rms_error = Ok false.
Proof.
  unfold compare_histograms, create. intros [[err Herr]|[err Herr]]; rewrite Herr.
  - by destruct err.
  - destruct (decode file) as [[]|image]; simpl; [done|done|]. by destruct err.
Qed.

Lemma compare_histograms_decode_failure_witness :
  compare_histograms rounded_libm example_difference example_decoder "a.jpg" "corrupt.jpg"
    0x1.999999999999ap-5 0x1.0624dd2f1a9fcp-10 = Ok false.
Proof.
  apply (compare_histograms_decode_failure rounded_libm example_difference example_decoder
           "a.jpg" "corrupt.jpg").
  right. exists bad_format. reflexivity.
Defined.



(** The last place of a square decides a comparison: with the threshold
    0x1.5cfea074530d9p-1 the two images are alike on the one library and
    not on the other. *)
Example last_place_of_a_square :
  compare_image_histograms last_place_libm example_difference dark_image black_image
    0x1.999999999999ap-5 0x1.5cfea074530d9p-1 = Ok true
  ∧ compare_image_histograms rounded_libm example_difference dark_image black_image
      0x1.999999999999ap-5 0x1.5cfea074530d9p-1 = Ok false
  ∧ rms_deviation last_place_libm (get_histogram dark_image) (get_histogram black_image)
    = 0x1.5cfea074530d8p-1%float
  ∧ rms_deviation rounded_libm (get_histogram dark_image) (get_histogram black_image)
    = 0x1.5cfea074530d9p-1%float.
Proof. by vm_compute. Qed.

(** C7: for a fixed pair of images and a fixed [aspect_fuzziness], a
    comparison that returns true at the threshold [t] returns true at every
    threshold [t' >= t]. *)
Theorem histogram_comparator_monotonic
    (m : libm) (relative_difference : float → float → float) (image other_image : ImageWrapper)
    (aspect_fuzziness t t' : float) :
  compare_image_histograms m relative_difference image other_image aspect_fuzziness t
    = Ok true →
  (t <=? t')%float = true →
  compare_image_histograms m relative_difference image other_image aspect_fuzziness t'
    = Ok true.
Proof.
  unfold compare_image_histograms.
  destruct (negb _); [done|].
  destruct (get_deviations _ _ _) as [deviations|e]; simpl; [|done].
  destruct (truediv _ _) as [mean|e]; simpl; [|done].
  destruct (math_sqrt mean) as [rms|e]; simpl; [|done].
  unfold mret, result_ret. intros [= Hlt] Hle. f_equal. by eapply ltb_leb_trans.
Qed.

Lemma histogram_comparator_monotonic_witness :
  compare_image_histograms rounded_libm example_difference small_image large_image
    0x1.999999999999ap-5 3 = Ok true.
Proof.
  apply (histogram_comparator_monotonic rounded_libm example_difference small_image large_image
           0x1.999999999999ap-5 2 3); vm_compute; reflexivity.
Defined.

(** The same holds of the comparator on files. *)
Lemma compare_histograms_monotonic m relative_difference decode file other_file
    aspect_fuzziness t t' :
  compare_histograms m relative_difference decode file other_file aspect_fuzziness t
    = Ok true →
  (t <=? t')%float = true →
  compare_histograms m relative_difference decode file other_file aspect_fuzziness t'
    = Ok true.
Proof.
  unfold compare_histograms.
  destruct (create decode file) as [image|e]; simpl; [|by destruct e].
  destruct (create decode other_file) as [other_image|e]; simpl; [|by destruct e].
  unfold compare_image_histograms.
  destruct (negb _); [done|].
  destruct (get_deviations _ _ _) as [deviations|e]; simpl; [|by destruct e].
  destruct (truediv _ _) as [mean|e]; simpl; [|by destruct e].
  destruct (math_sqrt mean) as [rms|e]; simpl; [|by destruct e].
  unfold mret, result_ret. intros [= Hlt] Hle. by rewrite (ltb_leb_trans _ _ _ Hlt Hle).
Qed.

(** ** The scenarios of the specification, evaluated *)

(** An empty list and a single file give no candidate and no match. *)
Example no_files_no_matches (compare_images : comparator) (parallel : bool) :
  similar_images [] compare_images 0x1.999999999999ap-5 0x1.0624dd2f1a9fcp-10
    parallel CHUNK_SIZE = Ok []
  ∧ similar_images ["a.jpg"] compare_images 0x1.999999999999ap-5 0x1.0624dd2f1a9fcp-10
      parallel CHUNK_SIZE = Ok [].
Proof. by destruct parallel. Qed.

(** Two byte-identical files and an unrelated one: the exact comparator
    accepts the first pair only, and the cache then holds what was read. *)
Example two_identical_files :
  (compare_exactly example_file_system "a.jpg" "b.jpg"
     0x1.999999999999ap-5 0x1.0624dd2f1a9fcp-10 empty_cache).1 = Ok true
  ∧ (compare_exactly example_file_system "a.jpg" "c.jpg"
       0x1.999999999999ap-5 0x1.0624dd2f1a9fcp-10 empty_cache).1 = Ok false
  ∧ (compare_exactly example_file_system "a.jpg" "missing.jpg"
       0x1.999999999999ap-5 0x1.0624dd2f1a9fcp-10 empty_cache).1
    = Raise (IOError "missing.jpg")
  ∧ hashes (compare_exactly example_file_system "a.jpg" "c.jpg"
              0x1.999999999999ap-5 0x1.0624dd2f1a9fcp-10 empty_cache).2 = ∅.
Proof. by vm_compute. Qed.

(** A near-duplicate at twice the size matches when the deviation of the
    histograms, the square root of 4/3 here, is below the threshold. *)
Example resized_near_duplicate :
  compare_histograms rounded_libm example_difference example_decoder "a.jpg" "b.jpg"
    0x1.999999999999ap-5 2 = Ok true
  ∧ compare_histograms rounded_libm example_difference example_decoder "a.jpg" "b.jpg"
      0x1.999999999999ap-5 1 = Ok false.
Proof. by vm_compute. Qed.

(** What the comparison of histograms raises: a square out of range, and
    the division by the length of an empty histogram; [compare_histograms]
    catches neither. *)
Example histogram_exceptions :
  pow2 rounded_libm 0x1p600 = Raise OverflowError
  ∧ compare_image_histograms rounded_libm example_difference
      (with_histogram small_image []) (with_histogram large_image [])
      0x1.999999999999ap-5 2 = Raise ZeroDivisionError.
Proof. by vm_compute. Qed.

(** ** Further properties of the search *)



Lemma elem_of_concat_inv {A} (x : A) (rows : list (list A)) :
  x ∈ concat rows → ∃ r, x ∈ r ∧ r ∈ rows.
Proof.
  induction rows as [|r rows IH]; simpl; [by intros ?%elem_of_nil|].
  intros [Hx|Hx]%elem_of_app.
  - exists r. split; [done|by left].
  - destruct (IH Hx) as (r' & Hx' & Hr'). exists r'. split; [done|by right].
Qed.

Lemma elem_of_drop_lookup {A} (x : A) (l : list A) (n : nat) :
  x ∈ drop n l ↔ ∃ j, n ≤ j ∧ l !! j = Some x.
Proof.
  rewrite list_elem_of_lookup. split.
  - intros [k Hk]. rewrite lookup_drop in Hk. exists (n + k). split; [lia|done].
  - intros (j & Hj & Hx). exists (j - n). rewrite lookup_drop.
    by replace (n + (j - n)) with j by lia.
Qed.



(** X2: a list of at most one file gives no match, in either mode, whatever
    the comparator and the chunk size. *)
Theorem similar_images_at_most_one_file (files : list string)
    (compare_images : comparator) (aspect_fuzziness rms_error : float)
    (parallel : bool) (chunk_size : Z) :
  length files ≤ 1 →
  similar_images files compare_images aspect_fuzziness rms_error parallel chunk_size
    = Ok [].
Proof.
  intros Hlen.
  assert (candidates files = Ok []) as Hnone.
  { destruct files as [|file [|other files]]; [done| |simpl in Hlen; lia].
    unfold candidates, files_after. simpl. by rewrite decide_True. }
  destruct parallel.
  - simpl. rewrite Hnone. simpl. rewrite pool_filter_cases.
    case_decide; [|done]. by destruct (bind_keywords _ _ _).
  - by rewrite similar_images_filter, Hnone.
Qed.

Lemma similar_images_at_most_one_file_witness :
  similar_images ["a.jpg"] {| keywords := ("fuzziness", "rms"); call := λ _ _ _ _, true |}
    0x1.999999999999ap-5 0x1.0624dd2f1a9fcp-10 true CHUNK_SIZE = Ok [].
Proof.
  apply (similar_images_at_most_one_file ["a.jpg"]). simpl. lia.
Defined.

(** ** Further properties of the attribute cache and of the exact comparator *)

(** X3: [lru_cache] remembers an answer and no exception.  After a
    successful [get_size] or [get_hash] the same call returns the same answer
    without changing the cache, whatever the file system has become; a call
    that raises leaves the cache as it was. *)
Theorem lru_cache_remembers (os os' : file_system) (file : string) (c : cache) :
  (∀ size c', get_size os file c = (Ok size, c') → get_size os' file c' = (Ok size, c'))
  ∧ (∀ e c', get_size os file c = (Raise e, c') → c' = c)
  ∧ (∀ digest c', get_hash os file c = (Ok digest, c') →
       get_hash os' file c' = (Ok digest, c'))
  ∧ (∀ e c', get_hash os file c = (Raise e, c') → c' = c).
Proof.
  split_and!.
  - intros size c'. unfold get_size.
    destruct (sizes c !! file) as [v|] eqn:Hc.
    + intros [= <- <-]. by rewrite Hc.
    + destruct (getsize os file); intros [= <- <-]. simpl. by rewrite lookup_insert_eq.
  - intros e c'. unfold get_size.
    destruct (sizes c !! file); [done|]. by destruct (getsize os file); intros [= <- <-].
  - intros digest c'. unfold get_hash.
    destruct (hashes c !! file) as [v|] eqn:Hc.
    + intros [= <- <-]. by rewrite Hc.
    + destruct (md5_hexdigest os file); intros [= <- <-]. simpl.
      by rewrite lookup_insert_eq.
  - intros e c'. unfold get_hash.
    destruct (hashes c !! file); [done|].
    by destruct (md5_hexdigest os file); intros [= <- <-].
Qed.

Lemma get_size_hashes os file c : hashes (get_size os file c).2 = hashes c.
Proof.
  unfold get_size. destruct (sizes c !! file); [done|]. by destruct (getsize os file).
Qed.

(** X4: when the two sizes differ, [compare_exactly] returns false without
    asking for a hash: the table of hashes is left as it was, and it does not
    matter whether the content of the files can be read. *)
Theorem compare_exactly_sizes_differ (os : file_system) (c : cache)
    (file other_file : string) (aspect_fuzziness rms_error : float) (size size' : Z) :
  size_lookup os c file = Ok size →
  size_lookup os c other_file = Ok size' →
  size ≠ size' →
  (compare_exactly os file other_file aspect_fuzziness rms_error c).1 = Ok false
  ∧ hashes (compare_exactly os file other_file aspect_fuzziness rms_error c).2 = hashes c.
Proof.
  intros Hs Hs' Hne. split.
  - rewrite compare_exactly_result, Hs, Hs'. simpl.
    by rewrite bool_decide_false by congruence.
  - unfold compare_exactly. rewrite cached_bind_unfold.
    pose proof (get_size_result os other_file c) as H1.
    pose proof (get_size_hashes os other_file c) as Hh1.
    pose proof (get_size_size_lookup os other_file c file) as Hl1.
    destruct (get_size os other_file c) as [[s1|e] c1]; simpl in *; [|congruence].
    rewrite cached_bind_unfold.
    pose proof (get_size_result os file c1) as H2.
    pose proof (get_size_hashes os file c1) as Hh2.
    destruct (get_size os file c1) as [[s2|e] c2]; simpl in *; [|congruence].
    rewrite bool_decide_false by congruence. simpl. congruence.
Qed.

Lemma compare_exactly_sizes_differ_witness :
  (compare_exactly example_file_system "a.jpg" "c.jpg"
     0x1.999999999999ap-5 0x1.0624dd2f1a9fcp-10 empty_cache).1 = Ok false
  ∧ hashes (compare_exactly example_file_system "a.jpg" "c.jpg"
              0x1.999999999999ap-5 0x1.0624dd2f1a9fcp-10 empty_cache).2
    = hashes empty_cache.
Proof.
  apply (compare_exactly_sizes_differ example_file_system empty_cache "a.jpg" "c.jpg"
           _ _ 3 7); [reflexivity|reflexivity|lia].
Defined.

(** X5: earlier comparisons have no influence on a comparison: on the cache
    any comparison has left, [compare_exactly] returns what it returns on
    the cache before it. *)
Theorem compare_exactly_after_comparison (os : file_system) (c : cache)
    (file other_file earlier earlier' : string)
    (aspect_fuzziness rms_error : float) :
  (compare_exactly os file other_file aspect_fuzziness rms_error
     (compare_exactly os earlier earlier' aspect_fuzziness rms_error c).2).1
  = (compare_exactly os file other_file aspect_fuzziness rms_error c).1.
Proof.
  rewrite (compare_exactly_result os file other_file _ _ (_.2)).
  rewrite !(proj1 (compare_exactly_lookups os earlier earlier' _ _ c _)).
  rewrite !(proj2 (compare_exactly_lookups os earlier earlier' _ _ c _)).
  by rewrite <- (compare_exactly_result os file other_file aspect_fuzziness rms_error c).
Qed.

(** X6: on files that can be read [compare_exactly] is reflexive, and it is
    transitive: with the symmetry above, an equivalence. *)
Theorem compare_exactly_reflexive_transitive (os : file_system) (c : cache)
    (aspect_fuzziness rms_error : float) :
  (∀ file size digest,
     size_lookup os c file = Ok size → hash_lookup os c file = Ok digest →
     (compare_exactly os file file aspect_fuzziness rms_error c).1 = Ok true)
  ∧ (∀ f g h,
       (compare_exactly os f g aspect_fuzziness rms_error c).1 = Ok true →
       (compare_exactly os g h aspect_fuzziness rms_error c).1 = Ok true →
       (compare_exactly os f h aspect_fuzziness rms_error c).1 = Ok true).
Proof.
  split.
  - intros file size digest Hs Hd. rewrite compare_exactly_result, Hs, Hd. simpl.
    rewrite bool_decide_true by done. simpl. unfold mret, result_ret.
    by rewrite bool_decide_true.
  - intros f g h. rewrite !compare_exactly_result.
    destruct (size_lookup os c f) as [sf|e], (size_lookup os c g) as [sg|e'],
      (size_lookup os c h) as [sh|e'']; simpl; try done.
    repeat case_bool_decide; simpl; try done; try congruence.
    destruct (hash_lookup os c f) as [hf|e], (hash_lookup os c g) as [hg|e'],
      (hash_lookup os c h) as [hh|e'']; simpl; try done.
    unfold mret, result_ret. intros [= Hfg] [= Hgh]. f_equal.
    apply bool_decide_eq_true in Hfg, Hgh. apply bool_decide_eq_true. congruence.
Qed.

(** ** The search with a comparator that uses the cache *)

Lemma cached_mapM_cons {A B} (f : A → cached B) (x : A) (l : list A) (c : cache) :
  mapM f (x :: l) c = (y ← f x; k ← mapM f l; mret (y :: k)) c.
Proof. reflexivity. Qed.

Lemma concat_fmap_bind {A B} (f : A → list B) (l : list A) :
  concat (f <$> l) = l ≫= f.
Proof. induction l as [|a l IH]; [done|]. csimpl. by rewrite IH. Qed.

Section cached_search.
Context (files : list string) (compare_images : cached_comparator).
Context (keep : string → string → bool) (aspect_fuzziness rms_error : float).
Context (I : cache → Prop) (names : string * string).

(** On the pairs the search draws, and as long as the cache satisfies [I],
    the comparator returns what the pure [keep] returns, and [I] goes on
    to hold. *)
Hypothesis compare_keeps : ∀ a b c,
  drawn files a b → I c →
  ∃ c', compare_images a b aspect_fuzziness rms_error c = (Ok (keep a b), c') ∧ I c'.

Lemma compare_row file others c :
  (∀ o, o ∈ others → drawn files file o) → I c →
  ∃ c',
    mapM (M := cached) (λ other_file,
      keep' ← compare_images file other_file aspect_fuzziness rms_error;
      mret (if keep' : bool then [(file, other_file)] else [])) others c
    = (Ok ((λ o, if keep file o then [(file, o)] else []) <$> others), c')
    ∧ I c'.
Proof.
  revert c. induction others as [|o others IH]; intros c Hdrawn Hc.
  - by exists c.
  - rewrite cached_mapM_cons, cached_bind_unfold, cached_bind_unfold.
    destruct (compare_keeps file o c) as (c1 & -> & Hc1); [apply Hdrawn; by left|done|].
    simpl. rewrite cached_bind_unfold.
    destruct (IH c1) as (c2 & -> & Hc2); [intros; apply Hdrawn; by right|done|].
    by exists c2.
Qed.

Lemma compare_rows sub c :
  sub ⊆ files → I c →
  ∃ rows c',
    mapM (M := cached) (λ file,
      others ← lift (files_after files file);
      kept ← mapM (M := cached) (λ other_file,
        keep' ← compare_images file other_file aspect_fuzziness rms_error;
        mret (if keep' : bool then [(file, other_file)] else [])) others;
      mret (concat kept)) sub c
    = (Ok rows, c')
    ∧ mapM (kept_row keep files) sub = Ok rows
    ∧ I c'.
Proof.
  match goal with |- context [mapM (M := cached) ?f sub] => set (g := f) end.
  revert c. induction sub as [|file sub IH]; intros c Hsub Hc.
  - by exists [], c.
  - rewrite cached_mapM_cons, mapM_result_cons, cached_bind_unfold.
    assert (file ∈ files) as Hfile by set_solver.
    destruct (index_elem_of file files Hfile) as [i Hi].
    assert (kept_row keep files file
            = Ok (concat ((λ o, if keep file o then [(file, o)] else [])
                            <$> drop (i + 1) files))) as ->.
    { unfold kept_row, files_after. rewrite Hi. simpl. unfold mret, result_ret.
      f_equal. symmetry. apply concat_fmap_bind. }
    assert (∃ c1, g file c
              = (Ok (concat ((λ o, if keep file o then [(file, o)] else [])
                               <$> drop (i + 1) files)), c1) ∧ I c1) as (c1 & -> & Hc1).
    { unfold g. rewrite cached_bind_unfold. unfold lift, files_after at 1.
      rewrite Hi. cbn [mbind result_bind mret result_ret].
      rewrite cached_bind_unfold.
      destruct (compare_row file (drop (i + 1) files) c) as (c1 & -> & Hc1); [|done|].
      { intros o Ho. by exists i. }
      by exists c1. }
    rewrite cached_bind_unfold.
    destruct (IH c1) as (rows & c2 & -> & -> & Hc2); [set_solver|done|].
    by eexists _, c2.
Qed.

Lemma cached_search_keeps c :
  I c →
  ∃ matches c',
    similar_images_sequential_cached files compare_images aspect_fuzziness rms_error c
      = (Ok matches, c')
    ∧ similar_images_sequential files
        {| keywords := names; call := λ a b _ _, keep a b |} aspect_fuzziness rms_error
      = Ok matches
    ∧ I c'.
Proof.
  intros Hc. unfold similar_images_sequential_cached. rewrite cached_bind_unfold.
  destruct (compare_rows files c) as (rows & c' & -> & Hrows & Hc'); [done..|].
  exists (concat rows), c'. split_and!; [done| |done].
  unfold similar_images_sequential.
  change (mapM _ files ≫= _) with
    (mapM (kept_row keep files) files ≫= λ rows, mret (concat rows)).
  by rewrite Hrows.
Qed.
End cached_search.

Lemma drawn_distinct files a b : NoDup files → drawn files a b → a ≠ b.
Proof.
  intros Hnd (i & Hi & Hb) ->.
  apply index_first in Hi as [Ha _].
  apply elem_of_drop_lookup in Hb as (j & Hj & Hb).
  pose proof (NoDup_lookup _ _ _ _ Hnd Ha Hb). lia.
Qed.

Lemma drawn_elem_of files a b : drawn files a b → a ∈ files ∧ b ∈ files.
Proof.
  intros (i & Hi & Hb). apply index_first in Hi as [Ha _]. split.
  - apply list_elem_of_lookup. eauto.
  - apply elem_of_drop_lookup in Hb as (j & _ & Hb). apply list_elem_of_lookup. eauto.
Qed.

Lemma compare_exactly_same_content os c file other_file aspect_fuzziness rms_error
    size size' digest digest' :
  cache_agrees os c →
  getsize os file = Ok size → getsize os other_file = Ok size' →
  md5_hexdigest os file = Ok digest → md5_hexdigest os other_file = Ok digest' →
  (compare_exactly os file other_file aspect_fuzziness rms_error c).1
  = Ok (same_content os file other_file).
Proof.
  intros Hc Hs Hs' Hd Hd'. rewrite compare_exactly_result.
  rewrite (size_lookup_agrees _ _ _ _ Hc Hs), (size_lookup_agrees _ _ _ _ Hc Hs').
  rewrite (hash_lookup_agrees _ _ _ _ Hc Hd), (hash_lookup_agrees _ _ _ _ Hc Hd').
  unfold same_content. rewrite Hs, Hs', Hd, Hd'. simpl. unfold mret, result_ret.
  destruct (decide (size = size')) as [<-|Hne].
  - rewrite (bool_decide_true (size = size)) by done.
    f_equal. apply bool_decide_ext. tauto.
  - rewrite (bool_decide_false (size' = size)) by done.
    f_equal. symmetry. apply bool_decide_eq_false. tauto.
Qed.

(** X7: on files that can all be read, the sequential search with
    [compare_exactly] returns the matches of the search with the pure
    comparator "same size and same digest", and the cache it leaves agrees
    with the file system. *)
Theorem exact_search_sequential (os : file_system) (files : list string)
    (aspect_fuzziness rms_error : float) (c : cache) :
  cache_agrees os c →
  (∀ file, file ∈ files →
     ∃ size digest, getsize os file = Ok size ∧ md5_hexdigest os file = Ok digest) →
  ∃ matches c',
    similar_images_sequential_cached files (compare_exactly os)
      aspect_fuzziness rms_error c = (Ok matches, c')
    ∧ similar_images files (exact_comparator os)
        aspect_fuzziness rms_error false CHUNK_SIZE = Ok matches
    ∧ cache_agrees os c'.
Proof.
  intros Hc Hread.
  apply (cached_search_keeps files (compare_exactly os) (same_content os)
           aspect_fuzziness rms_error (cache_agrees os)
           ("aspect_fuzziness", "rms_error")); [|done].
  intros a b c0 [Ha Hb]%drawn_elem_of Hc0.
  destruct (Hread a Ha) as (s & d & Hs & Hd), (Hread b Hb) as (s' & d' & Hs' & Hd').
  exists (compare_exactly os a b aspect_fuzziness rms_error c0).2. split.
  - rewrite <- (compare_exactly_same_content os c0 a b aspect_fuzziness rms_error
                  s s' d d') by done.
    by destruct (compare_exactly os a b aspect_fuzziness rms_error c0).
  - by apply compare_exactly_agrees.
Qed.

Lemma example_files_readable file :
  file ∈ ["a.jpg"; "b.jpg"; "c.jpg"] →
  ∃ size digest,
    getsize example_file_system file = Ok size
    ∧ md5_hexdigest example_file_system file = Ok digest.
Proof.
  rewrite !elem_of_cons, elem_of_nil. intros [->|[->|[->|[]]]]; by eexists _, _.
Qed.

Lemma exact_search_sequential_witness :
  ∃ matches c',
    similar_images_sequential_cached ["a.jpg"; "b.jpg"; "c.jpg"]
      (compare_exactly example_file_system)
      0x1.999999999999ap-5 0x1.0624dd2f1a9fcp-10 empty_cache = (Ok matches, c')
    ∧ similar_images ["a.jpg"; "b.jpg"; "c.jpg"]
        (exact_comparator example_file_system)
        0x1.999999999999ap-5 0x1.0624dd2f1a9fcp-10 false CHUNK_SIZE = Ok matches
    ∧ cache_agrees example_file_system c'.
Proof.
  apply (exact_search_sequential example_file_system ["a.jpg"; "b.jpg"; "c.jpg"]).
  - apply empty_cache_agrees.
  - apply example_files_readable.
Defined.

Lemma get_hash_hashes_dom os file c g :
  is_Some (hashes (get_hash os file c).2 !! g) → is_Some (hashes c !! g) ∨ g = file.
Proof.
  unfold get_hash. destruct (hashes c !! file) eqn:Hc; [by left|].
  destruct (md5_hexdigest os file); [|by left]. simpl.
  destruct (decide (file = g)) as [<-|Hne]; [by right|].
  rewrite lookup_insert_ne by done. by left.
Qed.

(** The hashes a comparison adds are those of its two files, and it adds
    them only when the sizes are equal. *)
Lemma compare_exactly_hashes_dom os file other_file aspect_fuzziness rms_error c g :
  is_Some (hashes (compare_exactly os file other_file aspect_fuzziness rms_error c).2 !! g) →
  is_Some (hashes c !! g)
  ∨ ((g = file ∨ g = other_file)
     ∧ ∃ size, size_lookup os c file = Ok size ∧ size_lookup os c other_file = Ok size).
Proof.
  unfold compare_exactly. rewrite cached_bind_unfold.
  pose proof (get_size_result os other_file c) as H1.
  pose proof (get_size_hashes os other_file c) as Hh1.
  pose proof (get_size_size_lookup os other_file c file) as Hl1.
  destruct (get_size os other_file c) as [[s1|e] c1]; simpl in *;
    [|rewrite Hh1; by left].
  rewrite cached_bind_unfold.
  pose proof (get_size_result os file c1) as H2.
  pose proof (get_size_hashes os file c1) as Hh2.
  destruct (get_size os file c1) as [[s2|e] c2]; simpl in *;
    [|rewrite Hh2, Hh1; by left].
  case_bool_decide as Heq; simpl; [|rewrite Hh2, Hh1; by left].
  subst s2.
  assert (∃ size, size_lookup os c file = Ok size ∧ size_lookup os c other_file = Ok size)
    as Hsame by (exists s1; split; congruence).
  assert (is_Some (hashes c2 !! g) → is_Some (hashes c !! g)) as Hold
    by (by rewrite Hh2, Hh1).
  rewrite cached_bind_unfold.
  pose proof (get_hash_hashes_dom os file c2 g) as Hd3.
  destruct (get_hash os file c2) as [[h1|e] c3]; simpl in *.
  - rewrite cached_bind_unfold.
    pose proof (get_hash_hashes_dom os other_file c3 g) as Hd4.
    destruct (get_hash os other_file c3) as [[h2|e] c4]; simpl in *; intros Hg;
      (destruct (Hd4 Hg) as [Hg3| ->]; [|right; split; [by right|done]]);
      (destruct (Hd3 Hg3) as [Hg2| ->]; [left; by apply Hold|right; split; [by left|done]]).
  - intros Hg. destruct (Hd3 Hg) as [Hg2| ->]; [left; by apply Hold|].
    right. split; [by left|done].
Qed.

(** X8: the search reads the content of no file whose size is unique.  On
    distinct, readable files and from an empty cache, the sequential search
    with [compare_exactly] leaves in the table of hashes only files of the
    list that share their size with another file of the list. *)
Theorem exact_search_hashes_shared_sizes_only (os : file_system) (files : list string)
    (aspect_fuzziness rms_error : float) :
  NoDup files →
  (∀ file, file ∈ files →
     ∃ size digest, getsize os file = Ok size ∧ md5_hexdigest os file = Ok digest) →
  ∃ matches c',
    similar_images_sequential_cached files (compare_exactly os)
      aspect_fuzziness rms_error empty_cache = (Ok matches, c')
    ∧ ∀ file, is_Some (hashes c' !! file) →
        file ∈ files
        ∧ ∃ other, other ∈ files ∧ other ≠ file ∧ getsize os other = getsize os file.
Proof.
  intros Hnd Hread.
  pose (I := λ c, cache_agrees os c
    ∧ ∀ file, is_Some (hashes c !! file) →
        file ∈ files
        ∧ ∃ other, other ∈ files ∧ other ≠ file ∧ getsize os other = getsize os file).
  destruct (cached_search_keeps files (compare_exactly os) (same_content os)
              aspect_fuzziness rms_error I ("aspect_fuzziness", "rms_error"))
    with (c := empty_cache)
    as (matches & c' & Hrun & _ & _ & Hc').
  - intros a b c0 Hdrawn [Hc0 Hshared].
    pose proof (drawn_distinct _ _ _ Hnd Hdrawn) as Hne.
    destruct (drawn_elem_of _ _ _ Hdrawn) as [Ha Hb].
    destruct (Hread a Ha) as (s & d & Hs & Hd), (Hread b Hb) as (s' & d' & Hs' & Hd').
    exists (compare_exactly os a b aspect_fuzziness rms_error c0).2.
    unfold I. split_and!.
    + rewrite <- (compare_exactly_same_content os c0 a b aspect_fuzziness rms_error
                    s s' d d') by done.
      by destruct (compare_exactly os a b aspect_fuzziness rms_error c0).
    + by apply compare_exactly_agrees.
    + intros g Hg.
      apply compare_exactly_hashes_dom in Hg as [Hg|[Hg (size & Hla & Hlb)]];
        [by apply Hshared|].
      rewrite (size_lookup_agrees _ _ _ _ Hc0 Hs) in Hla.
      rewrite (size_lookup_agrees _ _ _ _ Hc0 Hs') in Hlb.
      destruct Hg as [->| ->]; (split; [done|]).
      * exists b. split_and!; [done|done|congruence].
      * exists a. split_and!; [done|done|congruence].
  - split; [apply empty_cache_agrees|].
    intros file [v Hv]. simpl in Hv. by rewrite lookup_empty in Hv.
  - by exists matches, c'.
Qed.

Lemma exact_search_hashes_shared_sizes_only_witness :
  ∃ matches c',
    similar_images_sequential_cached ["a.jpg"; "b.jpg"; "c.jpg"]
      (compare_exactly example_file_system)
      0x1.999999999999ap-5 0x1.0624dd2f1a9fcp-10 empty_cache = (Ok matches, c')
    ∧ ∀ file, is_Some (hashes c' !! file) →
        file ∈ ["a.jpg"; "b.jpg"; "c.jpg"]
        ∧ ∃ other, other ∈ ["a.jpg"; "b.jpg"; "c.jpg"] ∧ other ≠ file
                   ∧ getsize example_file_system other = getsize example_file_system file.
Proof.
  apply (exact_search_hashes_shared_sizes_only example_file_system
           ["a.jpg"; "b.jpg"; "c.jpg"]).
  - apply (bool_decide_unpack _). vm_compute. exact I.
  - apply example_files_readable.
Defined.

Section cached_search_raises.
Context (files : list string) (compare_images : cached_comparator).
Context (aspect_fuzziness rms_error : float) (I : cache → Prop).
Context (file0 other0 : string).

(** Every comparison raises or keeps [I]; the comparison of [file0] with
    [other0], a pair the search draws, raises. *)
Hypothesis compare_progress : ∀ a b c,
  drawn files a b → I c →
  match compare_images a b aspect_fuzziness rms_error c with
  | (Raise _, _) => True
  | (Ok _, c') => I c'
  end.
Hypothesis compare_raises : ∀ c,
  I c → ∃ e c', compare_images file0 other0 aspect_fuzziness rms_error c = (Raise e, c').
Hypothesis pair_drawn : drawn files file0 other0.

Lemma compare_row_progress file others c :
  (∀ o, o ∈ others → drawn files file o) → I c →
  match
    mapM (M := cached) (λ other_file,
      keep' ← compare_images file other_file aspect_fuzziness rms_error;
      mret (if keep' : bool then [(file, other_file)] else [])) others c
  with
  | (Raise _, _) => True
  | (Ok _, c') => I c' ∧ (file = file0 → other0 ∉ others)
  end.
Proof.
  revert c. induction others as [|o others IH]; intros c Hdrawn Hc.
  - simpl. split; [done|]. intros _. apply not_elem_of_nil.
  - rewrite cached_mapM_cons, cached_bind_unfold, cached_bind_unfold.
    pose proof (compare_progress file o c (Hdrawn o ltac:(by left)) Hc) as Hstep.
    destruct (compare_images file o aspect_fuzziness rms_error c) as [[k|e] c1] eqn:Hk;
      [|done].
    simpl. rewrite cached_bind_unfold.
    specialize (IH c1 (λ o' Ho', Hdrawn o' ltac:(by right)) Hstep).
    destruct (mapM (M := cached) _ others c1) as [[ks|e] c2]; [|done].
    simpl. destruct IH as [Hc2 Hnot]. split; [done|].
    intros ->. apply not_elem_of_cons. split; [|by apply Hnot].
    intros ->. destruct (compare_raises c Hc) as (e & c' & Hraise). congruence.
Qed.

Lemma compare_rows_progress sub c :
  sub ⊆ files → I c →
  match
    mapM (M := cached) (λ file,
      others ← lift (files_after files file);
      kept ← mapM (M := cached) (λ other_file,
        keep' ← compare_images file other_file aspect_fuzziness rms_error;
        mret (if keep' : bool then [(file, other_file)] else [])) others;
      mret (concat kept)) sub c
  with
  | (Raise _, _) => True
  | (Ok _, c') => I c' ∧ file0 ∉ sub
  end.
Proof.
  match goal with |- context [mapM (M := cached) ?f sub] => set (g := f) end.
  revert c. induction sub as [|file sub IH]; intros c Hsub Hc.
  - simpl. split; [done|]. apply not_elem_of_nil.
  - rewrite cached_mapM_cons, cached_bind_unfold.
    assert (file ∈ files) as Hfile by set_solver.
    destruct (index_elem_of file files Hfile) as [i Hi].
    assert (match g file c with
            | (Raise _, _) => True
            | (Ok _, c1) => I c1 ∧ file ≠ file0
            end) as Hstep.
    { unfold g. rewrite cached_bind_unfold. unfold lift, files_after at 1.
      rewrite Hi. cbn [mbind result_bind mret result_ret].
      rewrite cached_bind_unfold.
      pose proof (compare_row_progress file (drop (i + 1) files) c) as Hrow.
      destruct (mapM (M := cached) _ (drop (i + 1) files) c) as [[ks|e] c1]; [|done].
      simpl. destruct Hrow as [Hc1 Hnot]; [|done|].
      { intros o Ho. by exists i. }
      split; [done|]. intros ->. apply Hnot; [done|].
      destruct pair_drawn as (i' & Hi' & Ho'). congruence. }
    destruct (g file c) as [[r|e] c1]; [|done].
    destruct Hstep as [Hc1 Hne]. rewrite cached_bind_unfold.
    specialize (IH c1 ltac:(set_solver) Hc1).
    destruct (mapM g sub c1) as [[rs|e] c2]; [|done].
    simpl. destruct IH as [Hc2 Hnot]. split; [done|].
    apply not_elem_of_cons. by split.
Qed.

Lemma cached_search_raises c :
  I c →
  ∃ e c',
    similar_images_sequential_cached files compare_images aspect_fuzziness rms_error c
      = (Raise e, c').
Proof.
  intros Hc. unfold similar_images_sequential_cached. rewrite cached_bind_unfold.
  pose proof (compare_rows_progress files c ltac:(done) Hc) as Hrows.
  destruct (mapM (M := cached) _ files c) as [[rows|e] c']; [|by eexists _, _].
  destruct Hrows as [_ Hnot]. destruct Hnot.
  by apply (drawn_elem_of files file0 other0).
Qed.
End cached_search_raises.

(** In a list of two files or more every file is in a pair the search
    draws. *)
Lemma drawn_some_pair files file :
  file ∈ files → 2 ≤ length files →
  ∃ a b, drawn files a b ∧ (a = file ∨ b = file).
Proof.
  intros Hin Hlen. destruct files as [|x [|y files]]; [simpl in Hlen; lia..|].
  destruct (decide (file = x)) as [->|Hne].
  - exists x, y. split; [|by left]. exists 0. split.
    + simpl. by rewrite decide_True.
    + simpl. by left.
  - exists x, file. split; [|by right]. exists 0. split.
    + simpl. by rewrite decide_True.
    + simpl. apply elem_of_cons in Hin as [?|Hin]; [done|]. done.
Qed.

(** X9: an unreadable file ends the exact search.  When the size of one of
    two or more files cannot be read, the sequential search with
    [compare_exactly] raises; no match is returned for the other files. *)
Theorem exact_search_unreadable_file (os : file_system) (files : list string)
    (aspect_fuzziness rms_error : float) (c : cache) (file : string) (e : exn) :
  cache_agrees os c →
  file ∈ files → 2 ≤ length files →
  getsize os file = Raise e →
  ∃ e' c',
    similar_images_sequential_cached files (compare_exactly os)
      aspect_fuzziness rms_error c = (Raise e', c').
Proof.
  intros Hc Hin Hlen Hfail.
  destruct (drawn_some_pair files file Hin Hlen) as (a & b & Hdrawn & Hab).
  apply (cached_search_raises files (compare_exactly os) aspect_fuzziness rms_error
           (cache_agrees os) a b); [| |done..].
  - intros a' b' c0 _ Hc0.
    pose proof (compare_exactly_agrees os a' b' aspect_fuzziness rms_error c0 Hc0).
    by destruct (compare_exactly os a' b' aspect_fuzziness rms_error c0) as [[k|e0] c1].
  - intros c0 Hc0.
    assert (size_lookup os c0 file = Raise e) as Hlookup.
    { unfold size_lookup. destruct (sizes c0 !! file) as [v|] eqn:Hv; [|done].
      apply Hc0 in Hv. congruence. }
    pose proof (compare_exactly_result os a b aspect_fuzziness rms_error c0) as Hres.
    destruct (compare_exactly os a b aspect_fuzziness rms_error c0) as [[k|e0] c1];
      [|by eexists _, _].
    simpl in Hres. destruct Hab as [->| ->]; rewrite Hlookup in Hres.
    + by destruct (size_lookup os c0 b).
    + done.
Qed.

Lemma exact_search_unreadable_file_witness :
  ∃ e' c',
    similar_images_sequential_cached ["a.jpg"; "missing.jpg"]
      (compare_exactly example_file_system)
      0x1.999999999999ap-5 0x1.0624dd2f1a9fcp-10 empty_cache = (Raise e', c').
Proof.
  apply (exact_search_unreadable_file example_file_system ["a.jpg"; "missing.jpg"]
           _ _ empty_cache "missing.jpg" (IOError "missing.jpg")).
  - apply empty_cache_agrees.
  - set_solver.
  - simpl. lia.
  - reflexivity.
Defined.


(** ** Further properties of the histogram comparator *)

(** *** What the comparison can raise *)

(** The square root of the mean of numbers that are not negative is never
    a domain error. *)
Lemma math_sqrt_mean (ds : list float) (n : nat) :
  Forall not_negative ds →
  math_sqrt (sum_floats ds / float_of_nat n)
  = Ok (PrimFloat.sqrt (sum_floats ds / float_of_nat n)).
Proof.
  intros Hds. unfold math_sqrt. rewrite not_negative_ltb_zero; [done|].
  apply div_not_negative; [|apply float_of_nat_positive_sign].
  by apply sum_floats_positive_sign.
Qed.

(** When no second power of the library is negative, no [v ** 2] is. *)
Lemma pow2_not_negative (m : libm) (v y : float) :
  (∀ x, not_negative (pow_2 m x).1) → pow2 m v = Ok y → not_negative y.
Proof.
  intros Hsign. unfold pow2.
  destruct (is_nan v) eqn:Hnan.
  { apply is_nan_eq in Hnan as ->. by intros [= <-]. }
  destruct (is_infinity v) eqn:Hinf.
  { rewrite (is_infinity_abs _ Hinf). by intros [= <-]. }
  destruct (v =? 0)%float; [by intros [= <-]|].
  destruct (_ =? 1)%float; [by intros [= <-]|].
  pose proof (Hsign (if (v <? 0)%float then (- v)%float else v)) as Hix.
  destruct (pow_2 m _) as [ix e]. simpl in *.
  destruct (adjust_erange1 ix e); [|done..]. by intros [= <-].
Qed.

(** When the library reports no domain error for a second power, all
    [v ** 2] can raise is [OverflowError]. *)
Lemma pow2_raise_overflow (m : libm) (v : float) (e : exn) :
  (∀ x, (pow_2 m x).2 ≠ EDOM) → pow2 m v = Raise e → e = OverflowError.
Proof.
  intros Hdom. unfold pow2.
  destruct (is_nan v); [done|]. destruct (is_infinity v); [done|].
  destruct (v =? 0)%float; [done|]. destruct (_ =? 1)%float; [done|].
  pose proof (Hdom (if (v <? 0)%float then (- v)%float else v)) as Hno.
  destruct (pow_2 m _) as [ix e']. simpl in *.
  destruct e'; simpl; [| |done].
  - destruct (_ || _); [|done]. by intros [= <-].
  - destruct (ix =? 0)%float; [done|]. by intros [= <-].
Qed.

Lemma mapM_pow2_not_negative (m : libm) (ds squares : list float) :
  (∀ x, not_negative (pow_2 m x).1) →
  mapM (pow2 m) ds = Ok squares → Forall not_negative squares.
Proof.
  intros Hsign. revert squares. induction ds as [|d ds IH]; intros squares.
  - intros [= <-]. constructor.
  - rewrite mapM_result_cons. destruct (pow2 m d) as [y|e] eqn:Hy; [|done]. simpl.
    destruct (mapM (pow2 m) ds) as [ys|e]; [|done]. simpl. intros [= <-].
    constructor; [by eapply pow2_not_negative|by apply IH].
Qed.

Lemma mapM_pow2_raise_overflow (m : libm) (ds : list float) (e : exn) :
  (∀ x, (pow_2 m x).2 ≠ EDOM) → mapM (pow2 m) ds = Raise e → e = OverflowError.
Proof.
  intros Hdom. induction ds as [|d ds IH]; [done|].
  rewrite mapM_result_cons. destruct (pow2 m d) as [y|e'] eqn:Hy; simpl.
  - destruct (mapM (pow2 m) ds) as [ys|e']; simpl; intros [= ->]. by apply IH.
  - intros [= ->]. by eapply pow2_raise_overflow.
Qed.

(** The comparison of two images returns a boolean or raises one of
    [ZeroDivisionError] and [OverflowError]; the former exactly when the
    aspect gate is open and the histogram of the first image is empty. *)
Lemma compare_image_histograms_cases m relative_difference image other_image
    aspect_fuzziness rms_error :
  (∀ x, not_negative (pow_2 m x).1) →
  (∀ x, (pow_2 m x).2 ≠ EDOM) →
  ((∃ b, compare_image_histograms m relative_difference image other_image
           aspect_fuzziness rms_error = Ok b)
   ∨ compare_image_histograms m relative_difference image other_image
       aspect_fuzziness rms_error = Raise ZeroDivisionError
   ∨ compare_image_histograms m relative_difference image other_image
       aspect_fuzziness rms_error = Raise OverflowError)
  ∧ (compare_image_histograms m relative_difference image other_image
       aspect_fuzziness rms_error = Raise ZeroDivisionError
     ↔ aspects_roughly_equal relative_difference image other_image aspect_fuzziness = true
       ∧ get_histogram image = []).
Proof.
  intros Hsign Hdom. unfold compare_image_histograms, get_deviations.
  destruct (aspects_roughly_equal _ _ _ _); simpl;
    [|split; [left; by eexists|split; [done|by intros [? _]]]].
  destruct (mapM (pow2 m) _) as [devs|e] eqn:Hdevs; simpl.
  - apply mapM_pow2_not_negative in Hdevs; [|done]. unfold truediv.
    destruct (length (get_histogram image)) as [|n] eqn:Hn; simpl.
    + apply length_zero_iff_nil in Hn. split; [right; by left|done].
    + rewrite math_sqrt_mean by done. simpl. split; [left; by eexists|].
      split; [done|]. intros [_ Hnil]. by rewrite Hnil in Hn.
  - pose proof (mapM_pow2_raise_overflow _ _ _ Hdom Hdevs) as ->.
    split; [right; by right|]. split; [done|].
    intros [_ Hnil]. by rewrite Hnil in Hdevs.
Qed.

(** X10: [compare_histograms] does not contain every failure.  When the
    second power of the library of the platform is never negative and
    never a domain error, as the C standard has it, [compare_histograms]
    never raises [IOError], [TypeError] or [ValueError], but it raises
    [OverflowError] or [ZeroDivisionError] when the comparison of the images
    does; the latter exactly when both files are decoded, the aspect gate is
    open and the histogram of the first image is empty. *)
Theorem compare_histograms_outcomes (m : libm)
    (relative_difference : float → float → float)
    (decode : decoder) (file other_file : string) (aspect_fuzziness rms_error : float) :
  (∀ x, not_negative (pow_2 m x).1) →
  (∀ x, (pow_2 m x).2 ≠ EDOM) →
  ((∃ b, compare_histograms m relative_difference decode file other_file
           aspect_fuzziness rms_error = Ok b)
   ∨ compare_histograms m relative_difference decode file other_file
       aspect_fuzziness rms_error = Raise ZeroDivisionError
   ∨ compare_histograms m relative_difference decode file other_file
       aspect_fuzziness rms_error = Raise OverflowError)
  ∧ (compare_histograms m relative_difference decode file other_file
       aspect_fuzziness rms_error = Raise ZeroDivisionError
     ↔ ∃ image other_image,
         decode file = inr image ∧ decode other_file = inr other_image
         ∧ aspects_roughly_equal relative_difference image other_image aspect_fuzziness
           = true
         ∧ get_histogram image = []).
Proof.
  intros Hsign Hdom. unfold compare_histograms, create.
  destruct (decode file) as [err|image] eqn:Hfile.
  { split; [left; exists false; by destruct err|].
    split; [by destruct err|]. by intros (? & ? & [=] & _). }
  destruct (decode other_file) as [err|other_image] eqn:Hother.
  { split; [left; exists false; by destruct err|].
    split; [by destruct err|]. by intros (? & ? & _ & [=] & _). }
  simpl.
  destruct (compare_image_histograms_cases m relative_difference image other_image
              aspect_fuzziness rms_error Hsign Hdom) as [Hcases Hzero].
  destruct (compare_image_histograms _ _ _ _ _ _) as [b|e] eqn:Hcmp.
  - split; [left; by eexists|]. split; [done|].
    intros (i & o & [= <-] & [= <-] & Hgate). by apply Hzero in Hgate.
  - destruct Hcases as [[b [=]]|[[= ->]|[= ->]]].
    + split; [right; by left|]. split.
      * intros _. exists image, other_image. split_and!; [done|done|..];
          by apply Hzero.
      * done.
    + split; [right; by right|]. split; [done|].
      intros (i & o & [= <-] & [= <-] & Hgate). by apply Hzero in Hgate.
Qed.

Lemma compare_histograms_outcomes_witness :
  ((∃ b, compare_histograms last_place_libm example_difference example_decoder
           "a.jpg" "b.jpg" 0x1.999999999999ap-5 2 = Ok b)
   ∨ compare_histograms last_place_libm example_difference example_decoder
       "a.jpg" "b.jpg" 0x1.999999999999ap-5 2 = Raise ZeroDivisionError
   ∨ compare_histograms last_place_libm example_difference example_decoder
       "a.jpg" "b.jpg" 0x1.999999999999ap-5 2 = Raise OverflowError)
  ∧ (compare_histograms last_place_libm example_difference example_decoder
       "a.jpg" "b.jpg" 0x1.999999999999ap-5 2 = Raise ZeroDivisionError
     ↔ ∃ image other_image,
         example_decoder "a.jpg" = inr image ∧ example_decoder "b.jpg" = inr other_image
         ∧ aspects_roughly_equal example_difference image other_image 0x1.999999999999ap-5
           = true
         ∧ get_histogram image = []).
Proof.
  apply (compare_histograms_outcomes last_place_libm example_difference example_decoder
           "a.jpg" "b.jpg").
  - apply last_place_libm_not_negative.
  - apply (pow_no_domain_error _ last_place_libm_conforming).
Defined.

(** A library that reports a domain error lets [ValueError] through. *)
Example domain_error_of_the_library :
  compare_histograms {| pow_2 := λ x, (nan, EDOM) |} example_difference example_decoder
    "a.jpg" "b.jpg" 0x1.999999999999ap-5 2 = Raise ValueError.
Proof. by vm_compute. Qed.

Lemma zip_with_app_r_ignored {A B C} (f : A → B → C) (l : list A) (k extra : list B) :
  length l ≤ length k → zip_with f l (k ++ extra) = zip_with f l k.
Proof.
  revert k. induction l as [|a l IH]; intros [|b k] Hlen; simpl in *; try done; [lia|].
  f_equal. apply IH. lia.
Qed.

(** X11: the buckets of the second histogram beyond the length of the first
    have no influence on the comparison: they are neither compared nor
    counted. *)
Theorem compare_image_histograms_extra_buckets
    (m : libm) (relative_difference : float → float → float) (image other_image : ImageWrapper)
    (hist extra : list float) (aspect_fuzziness rms_error : float) :
  length (get_histogram image) ≤ length hist →
  compare_image_histograms m relative_difference image
    (with_histogram other_image (hist ++ extra)) aspect_fuzziness rms_error
  = compare_image_histograms m relative_difference image
      (with_histogram other_image hist) aspect_fuzziness rms_error.
Proof.
  intros Hlen. unfold compare_image_histograms, aspects_roughly_equal, get_deviations.
  change (get_aspect (with_histogram ?i ?h)) with (get_aspect i).
  change (get_histogram (with_histogram ?i ?h)) with h.
  by rewrite zip_with_app_r_ignored.
Qed.

Lemma compare_image_histograms_extra_buckets_witness :
  compare_image_histograms rounded_libm example_difference small_image
    (with_histogram large_image ([1; 2; 5] ++ [7; 7; 7])%float)
    0x1.999999999999ap-5 2
  = compare_image_histograms rounded_libm example_difference small_image
      (with_histogram large_image [1; 2; 5]%float) 0x1.999999999999ap-5 2.
Proof.
  apply (compare_image_histograms_extra_buckets rounded_libm example_difference small_image large_image).
  simpl. lia.
Defined.


(** ** Properties of the file enumerator *)

Example scan_of_example_directories :
  files_in_dir 2 example_directories "photos/" is_jpg
  = Some (Ok ["photos/a.jpg"; "photos/sub/b.jpg"; "photos/sub/readme"])
  ∧ files_in_dir 1 example_directories "photos/" is_jpg = None
  ∧ files_in_dir 2 example_directories "/" is_jpg = Some (Raise (IOError "")).
Proof. by vm_compute. Qed.

(** *** Paths *)

Lemma string_app_cons (a : Ascii.ascii) (s1 s2 : string) :
  String a s1 +:+ s2 = String a (s1 +:+ s2).
Proof. reflexivity. Qed.

Lemma string_app_assoc (s1 s2 s3 : string) : (s1 +:+ s2) +:+ s3 = s1 +:+ s2 +:+ s3.
Proof. induction s1 as [|a s1 IH]; [done|]. by rewrite !string_app_cons, IH. Qed.

Lemma string_app_nil_r (s : string) : s +:+ "" = s.
Proof. induction s as [|a s IH]; [done|]. by rewrite string_app_cons, IH. Qed.

Lemma string_app_nil_inv (s1 s2 : string) : s1 +:+ s2 = "" → s1 = "" ∧ s2 = "".
Proof. by destruct s1. Qed.

Lemma rstrip_slash_no_trailing (s : string) : ends_with_slash (rstrip_slash s) = false.
Proof.
  induction s as [|a s IH]; [done|]. simpl.
  destruct (rstrip_slash s) as [|b r] eqn:Hr.
  - destruct (decide (a = "/"%char)); [done|]. simpl. by rewrite bool_decide_false.
  - done.
Qed.

Lemma rstrip_slash_fixed (s : string) : ends_with_slash s = false → rstrip_slash s = s.
Proof.
  induction s as [|a s IH]; [done|]. simpl. destruct s as [|b s].
  - intros Ha%bool_decide_eq_false. by rewrite decide_False.
  - intros Hs. rewrite (IH Hs). done.
Qed.

Lemma rstrip_slash_idemp (s : string) : rstrip_slash (rstrip_slash s) = rstrip_slash s.
Proof. apply rstrip_slash_fixed, rstrip_slash_no_trailing. Qed.

Lemma rstrip_slash_app_slash (s : string) : rstrip_slash (s +:+ "/") = rstrip_slash s.
Proof.
  induction s as [|a s IH]; [done|]. rewrite string_app_cons. simpl. by rewrite IH.
Qed.

Lemma no_slash_no_trailing (name : string) :
  has_slash name = false → ends_with_slash name = false.
Proof.
  induction name as [|a name IH]; [done|]. simpl.
  intros [Ha Hname]%orb_false_elim. destruct name; [done|]. by apply IH.
Qed.

Lemma app_no_trailing (s name : string) :
  name ≠ "" → ends_with_slash name = false → ends_with_slash (s +:+ name) = false.
Proof.
  intros Hne Hname. induction s as [|a s IH]; [done|].
  rewrite string_app_cons. simpl.
  destruct (s +:+ name) as [|b r] eqn:Hr; [|done].
  by apply string_app_nil_inv in Hr as [_ ?].
Qed.

(** *** The scan *)

Lemma deep_mapM_ext {A B} (f g : A → option (result B)) (l : list A) :
  (∀ x, x ∈ l → f x = g x) → deep_mapM f l = deep_mapM g l.
Proof.
  induction l as [|x l IH]; intros Hfg; [done|].
  simpl. rewrite (Hfg x) by by left. rewrite IH; [done|].
  intros y Hy. apply Hfg. by right.
Qed.

Lemma deep_mapM_Ok {A B} (f : A → option (result B)) (l : list A) (ys : list B) :
  deep_mapM f l = Some (Ok ys) → Forall2 (λ x y, f x = Some (Ok y)) l ys.
Proof.
  revert ys. induction l as [|x l IH]; intros ys; simpl.
  - intros [= <-]. constructor.
  - destruct (f x) as [[y|e]|] eqn:Hx; [|done..].
    destruct (deep_mapM f l) as [[ys'|e]|]; [|done..].
    intros [= <-]. constructor; [done|]. by apply IH.
Qed.

Lemma files_in_dir_unfold fuel os dir_name is_file :
  files_in_dir (S fuel) os dir_name is_file
  = match listdir os (rstrip_slash dir_name) with
    | Raise e => Some (Raise e)
    | Ok names =>
        match
          deep_mapM (λ name,
            if isdir os (os_path_join (rstrip_slash dir_name) name)
            then files_in_dir fuel os (os_path_join (rstrip_slash dir_name) name) (isfile os)
            else Some (Ok (if is_file (os_path_join (rstrip_slash dir_name) name)
                           then [os_path_join (rstrip_slash dir_name) name] else [])))
            names
        with
        | None => None
        | Some (Raise e) => Some (Raise e)
        | Some (Ok lists) => Some (Ok (concat lists))
        end
    end.
Proof. reflexivity. Qed.

(** The result depends on [dir_name] through [dir_name.rstrip('/')] only. *)
Lemma files_in_dir_rstrip fuel os dir_name is_file :
  files_in_dir fuel os (rstrip_slash dir_name) is_file
  = files_in_dir fuel os dir_name is_file.
Proof.
  destruct fuel as [|fuel]; [done|].
  by rewrite !files_in_dir_unfold, rstrip_slash_idemp.
Qed.

(** X12: the predicate decides about the entries of [dir_name] itself only.
    Two predicates that agree on the paths of these entries give the same
    result: below, in the subdirectories, the recursive call is made without
    the predicate, and [os.path.isfile] decides instead. *)
Theorem files_in_dir_predicate_at_top_only (fuel : nat) (os : directories)
    (dir_name : string) (is_file is_file' : string → bool) :
  (∀ names name,
     listdir os (rstrip_slash dir_name) = Ok names → name ∈ names →
     is_file (os_path_join (rstrip_slash dir_name) name)
     = is_file' (os_path_join (rstrip_slash dir_name) name)) →
  files_in_dir fuel os dir_name is_file = files_in_dir fuel os dir_name is_file'.
Proof.
  intros Hagree. destruct fuel as [|fuel]; [done|].
  rewrite !files_in_dir_unfold.
  destruct (listdir os (rstrip_slash dir_name)) as [names|e] eqn:Hnames; [|done].
  erewrite deep_mapM_ext; [done|].
  intros name Hname. simpl. by rewrite (Hagree names name).
Qed.

Lemma files_in_dir_predicate_at_top_only_witness :
  files_in_dir 2 example_directories "photos/" is_jpg
  = files_in_dir 2 example_directories "photos/"
      (λ path, bool_decide (path = "photos/a.jpg")).
Proof.
  apply (files_in_dir_predicate_at_top_only 2 example_directories "photos/").
  intros names name [= <-]. rewrite !elem_of_cons, elem_of_nil.
  intros [->|[->|[->|[]]]]; reflexivity.
Defined.

(** X13: trailing slashes of the directory name do not count, and the root
    directory is listed under the empty path: the scan of ["/"] is the scan
    of [""]. *)
Theorem files_in_dir_trailing_slash (fuel : nat) (os : directories)
    (dir_name : string) (is_file : string → bool) :
  files_in_dir fuel os (dir_name +:+ "/") is_file = files_in_dir fuel os dir_name is_file
  ∧ files_in_dir fuel os "/" is_file = files_in_dir fuel os "" is_file.
Proof.
  split.
  - by rewrite <- (files_in_dir_rstrip _ _ (dir_name +:+ "/")), rstrip_slash_app_slash,
      files_in_dir_rstrip.
  - by rewrite <- (files_in_dir_rstrip _ _ "/").
Qed.

Lemma deep_mapM_Ok_elem_of_r {A B} (f : A → option (result B)) l ys y :
  deep_mapM f l = Some (Ok ys) → y ∈ ys → ∃ x, x ∈ l ∧ f x = Some (Ok y).
Proof.
  intros Hrun%deep_mapM_Ok. induction Hrun as [|x y' l ys Hx _ IH].
  - by intros ?%elem_of_nil.
  - intros [->|Hy]%elem_of_cons.
    + exists x. split; [by left|done].
    + destruct (IH Hy) as (x' & Hx' & Hfx'). exists x'. split; [by right|done].
Qed.

Lemma deep_mapM_Ok_elem_of_l {A B} (f : A → option (result B)) l ys x :
  deep_mapM f l = Some (Ok ys) → x ∈ l → ∃ y, y ∈ ys ∧ f x = Some (Ok y).
Proof.
  intros Hrun%deep_mapM_Ok. induction Hrun as [|x' y l ys Hx _ IH].
  - by intros ?%elem_of_nil.
  - intros [->|Hin]%elem_of_cons.
    + exists y. split; [by left|done].
    + destruct (IH Hin) as (y' & Hy' & Hfx'). exists y'. split; [by right|done].
Qed.

Lemma files_in_dir_Ok_inv fuel os dir_name is_file files :
  files_in_dir fuel os dir_name is_file = Some (Ok files) →
  ∃ fuel' names lists,
    fuel = S fuel'
    ∧ listdir os (rstrip_slash dir_name) = Ok names
    ∧ deep_mapM (λ name,
        if isdir os (os_path_join (rstrip_slash dir_name) name)
        then files_in_dir fuel' os (os_path_join (rstrip_slash dir_name) name) (isfile os)
        else Some (Ok (if is_file (os_path_join (rstrip_slash dir_name) name)
                       then [os_path_join (rstrip_slash dir_name) name] else [])))
        names = Some (Ok lists)
    ∧ files = concat lists.
Proof.
  destruct fuel as [|fuel]; [done|]. rewrite files_in_dir_unfold.
  destruct (listdir os (rstrip_slash dir_name)) as [names|e]; [|done].
  destruct (deep_mapM _ names) as [[lists|e]|] eqn:Hrun; [|done..].
  intros [= <-]. by exists fuel, names, lists.
Qed.

Lemma files_in_dir_accepted fuel os dir_name is_file files p :
  files_in_dir fuel os dir_name is_file = Some (Ok files) → p ∈ files →
  isdir os p = false ∧ (is_file p = true ∨ isfile os p = true).
Proof.
  revert dir_name is_file files. induction fuel as [|fuel IH]; [done|].
  intros dir_name is_file files Hrun Hp.
  apply files_in_dir_Ok_inv in Hrun as (fuel' & names & lists & [= <-] & _ & Hrun & ->).
  apply elem_of_concat_inv in Hp as (list & Hp & Hlist).
  destruct (deep_mapM_Ok_elem_of_r _ _ _ _ Hrun Hlist) as (name & _ & Hentry).
  simpl in Hentry.
  destruct (isdir os (os_path_join (rstrip_slash dir_name) name)) eqn:Hdir.
  - destruct (IH _ _ _ Hentry Hp) as [Hnd [Hf|Hf]]; auto.
  - injection Hentry as <-.
    destruct (is_file (os_path_join (rstrip_slash dir_name) name)) eqn:Hf;
      [|by apply elem_of_nil in Hp].
    apply list_elem_of_singleton in Hp as ->. auto.
Qed.

(** X14: what a scan returns.  No returned path is a directory; each is an
    entry of [dir_name] that [is_file] accepts, or is accepted by
    [os.path.isfile]; and every entry of [dir_name] that is no directory and
    that [is_file] accepts is returned. *)
Theorem files_in_dir_returns (fuel : nat) (os : directories) (dir_name : string)
    (is_file : string → bool) (files names : list string) :
  files_in_dir fuel os dir_name is_file = Some (Ok files) →
  listdir os (rstrip_slash dir_name) = Ok names →
  (∀ p, p ∈ files →
     isdir os p = false
     ∧ ((∃ name, name ∈ names ∧ p = os_path_join (rstrip_slash dir_name) name
                 ∧ is_file p = true)
        ∨ isfile os p = true))
  ∧ (∀ name, name ∈ names →
       isdir os (os_path_join (rstrip_slash dir_name) name) = false →
       is_file (os_path_join (rstrip_slash dir_name) name) = true →
       os_path_join (rstrip_slash dir_name) name ∈ files).
Proof.
  intros Hrun Hnames.
  apply files_in_dir_Ok_inv in Hrun as (fuel' & names' & lists & -> & Hnames' & Hrun & ->).
  assert (names' = names) as -> by congruence. split.
  - intros p (list & Hp & Hlist)%elem_of_concat_inv.
    destruct (deep_mapM_Ok_elem_of_r _ _ _ _ Hrun Hlist) as (name & Hname & Hentry).
    simpl in Hentry.
    destruct (isdir os (os_path_join (rstrip_slash dir_name) name)) eqn:Hdir.
    + destruct (files_in_dir_accepted _ _ _ _ _ _ Hentry Hp) as [Hnd Hf].
      split; [done|]. right. by destruct Hf.
    + injection Hentry as <-.
      destruct (is_file (os_path_join (rstrip_slash dir_name) name)) eqn:Hf;
        [|by apply elem_of_nil in Hp].
      apply list_elem_of_singleton in Hp as ->. split; [done|]. left. by exists name.
  - intros name Hname Hdir Hf.
    destruct (deep_mapM_Ok_elem_of_l _ _ _ _ Hrun Hname) as (list & Hlist & Hentry).
    simpl in Hentry. rewrite Hdir, Hf in Hentry. injection Hentry as <-.
    apply (elem_of_concat _ [os_path_join (rstrip_slash dir_name) name]); [|done].
    by apply list_elem_of_singleton.
Qed.

Lemma files_in_dir_returns_witness :
  (∀ p, p ∈ ["photos/a.jpg"; "photos/sub/b.jpg"; "photos/sub/readme"] →
     isdir example_directories p = false
     ∧ ((∃ name, name ∈ ["a.jpg"; "notes.txt"; "sub"]
                 ∧ p = os_path_join (rstrip_slash "photos/") name ∧ is_jpg p = true)
        ∨ isfile example_directories p = true))
  ∧ (∀ name, name ∈ ["a.jpg"; "notes.txt"; "sub"] →
       isdir example_directories (os_path_join (rstrip_slash "photos/") name) = false →
       is_jpg (os_path_join (rstrip_slash "photos/") name) = true →
       os_path_join (rstrip_slash "photos/") name
       ∈ ["photos/a.jpg"; "photos/sub/b.jpg"; "photos/sub/readme"]).
Proof.
  apply (files_in_dir_returns 2 example_directories "photos/" is_jpg); reflexivity.
Defined.

(** *** A directory that cannot be listed *)

Lemma scanned_stripped os dir_name dir :
  scanned os dir_name dir → rstrip_slash dir = dir.
Proof. destruct 1; apply rstrip_slash_idemp. Qed.

Lemma scanned_returns os dir_name dir fuel is_file files :
  files_in_dir fuel os dir_name is_file = Some (Ok files) →
  scanned os dir_name dir →
  ∃ fuel' is_file' files', files_in_dir fuel' os dir is_file' = Some (Ok files').
Proof.
  intros Hrun. induction 1 as [|dir names name Hscan IH Hnames Hname Hdir].
  - exists fuel, is_file, files. by rewrite files_in_dir_rstrip.
  - destruct IH as (fuel' & is_file' & files' & Hrun').
    apply files_in_dir_Ok_inv in Hrun'
      as (fuel'' & names' & lists & -> & Hnames' & Hrun' & ->).
    rewrite (scanned_stripped _ _ _ Hscan) in Hnames', Hrun'.
    assert (names' = names) as -> by congruence.
    destruct (deep_mapM_Ok_elem_of_l _ _ _ _ Hrun' Hname) as (list & _ & Hentry).
    simpl in Hentry. rewrite Hdir in Hentry.
    exists fuel'', (isfile os), list. by rewrite files_in_dir_rstrip.
Qed.

(** X15: a directory that cannot be listed ends the scan.  When [os.listdir]
    raises for [dir_name] or for any directory found below it, the scan
    returns no list of files, whatever else the tree holds. *)
Theorem files_in_dir_unlistable_directory (fuel : nat) (os : directories)
    (dir_name dir : string) (is_file : string → bool) (e : exn) (files : list string) :
  scanned os dir_name dir →
  listdir os dir = Raise e →
  files_in_dir fuel os dir_name is_file ≠ Some (Ok files).
Proof.
  intros Hscan Hfail Hrun.
  destruct (scanned_returns _ _ _ _ _ _ Hrun Hscan) as (fuel' & is_file' & files' & Hrun').
  apply files_in_dir_Ok_inv in Hrun' as (_ & names & _ & _ & Hnames & _).
  rewrite (scanned_stripped _ _ _ Hscan) in Hnames. congruence.
Qed.

Lemma files_in_dir_unlistable_directory_witness :
  files_in_dir 3
    {| listdir := λ dir, if decide (dir = "photos") then Ok ["locked"]
                         else Raise (IOError dir);
       isdir := λ path, bool_decide (path = "photos/locked");
       isfile := λ _, false |}
    "photos" is_jpg ≠ Some (Ok []).
Proof.
  apply (files_in_dir_unlistable_directory 3 _ "photos" "photos/locked" is_jpg
           (IOError "photos/locked")).
  - apply (scanned_sub _ "photos" "photos" ["locked"] "locked");
      [apply (scanned_root _ "photos")|reflexivity|set_solver|reflexivity].
  - reflexivity.
Defined.

(** *** Distinct paths *)

Lemma proper_name_no_leading (name : string) :
  has_slash name = false → starts_with_slash name = false.
Proof. destruct name as [|a name]; [done|]. simpl. by intros [? _]%orb_false_elim. Qed.

Lemma os_path_join_child (dir name : string) :
  ends_with_slash dir = false → has_slash name = false →
  os_path_join dir name = child_prefix dir +:+ name.
Proof.
  intros Hdir Hname. unfold os_path_join, child_prefix.
  rewrite (proper_name_no_leading _ Hname), Hdir.
  destruct (decide (dir = "")) as [->|Hne].
  - done.
  - rewrite bool_decide_false by done. simpl. by rewrite string_app_assoc.
Qed.

Lemma child_stripped (dir name : string) :
  ends_with_slash dir = false → name ≠ "" → has_slash name = false →
  rstrip_slash (os_path_join dir name) = os_path_join dir name
  ∧ os_path_join dir name ≠ "".
Proof.
  intros Hdir Hne Hname. rewrite (os_path_join_child _ _ Hdir Hname). split.
  - apply rstrip_slash_fixed, app_no_trailing; [done|]. by apply no_slash_no_trailing.
  - by intros [_ ?]%string_app_nil_inv.
Qed.

(** Two paths that begin with names without a slash, each followed by
    nothing or by a separator, begin with the same name when they are
    equal. *)
Lemma no_slash_split (n1 n2 r1 r2 : string) :
  has_slash n1 = false → has_slash n2 = false → path_rest r1 → path_rest r2 →
  n1 +:+ r1 = n2 +:+ r2 → n1 = n2.
Proof.
  revert n2. induction n1 as [|a n1 IH]; intros [|b n2] H1 H2 Hr1 Hr2 Heq.
  - done.
  - change ("" +:+ r1) with r1 in Heq. rewrite string_app_cons in Heq. subst r1.
    destruct Hr1 as [?|Hr1]; [done|]. simpl in *. by rewrite Hr1 in H2.
  - change ("" +:+ r2) with r2 in Heq. rewrite string_app_cons in Heq. subst r2.
    destruct Hr2 as [?|Hr2]; [done|]. simpl in *. by rewrite Hr2 in H1.
  - rewrite !string_app_cons in Heq. injection Heq as -> Heq.
    simpl in H1, H2. apply orb_false_elim in H1 as [_ H1], H2 as [_ H2].
    f_equal. by apply (IH n2).
Qed.

Lemma deep_mapM_NoDup (f : string → option (result (list string)))
    (names : list string) (lists : list (list string)) (pre : string) :
  NoDup names →
  (∀ name, name ∈ names → has_slash name = false) →
  deep_mapM f names = Some (Ok lists) →
  (∀ name list, name ∈ names → f name = Some (Ok list) →
     NoDup list ∧ ∀ p, p ∈ list → ∃ rest, p = pre +:+ name +:+ rest ∧ path_rest rest) →
  NoDup (concat lists)
  ∧ ∀ p, p ∈ concat lists →
      ∃ name rest, name ∈ names ∧ p = pre +:+ name +:+ rest ∧ path_rest rest.
Proof.
  intros Hnd Hnames Hrun%deep_mapM_Ok. revert Hnd Hnames.
  induction Hrun as [|name list names lists Hentry _ IH]; intros Hnd Hnames Hrows.
  - split; [constructor|]. by intros p ?%elem_of_nil.
  - apply NoDup_cons in Hnd as [Hfresh Hnd].
    destruct IH as [IHnd IHin]; [done|..].
    { intros n Hn. apply Hnames. by right. }
    { intros n l Hn. apply Hrows. by right. }
    destruct (Hrows name list) as [Hlist Hin]; [by left|done|].
    split.
    + simpl. apply NoDup_app. split_and!; [done| |done].
      intros p Hp Hp'. destruct (Hin p Hp) as (rest & -> & Hrest).
      destruct (IHin _ Hp') as (name' & rest' & Hname' & Heq & Hrest').
      apply (inj (String.app pre)) in Heq.
      apply no_slash_split in Heq as ->; [done|..|done|done].
      * apply Hnames. by left.
      * apply Hnames. by right.
    + simpl. intros p [Hp|Hp]%elem_of_app.
      * destruct (Hin p Hp) as (rest & -> & Hrest). exists name, rest.
        split; [by left|done].
      * destruct (IHin p Hp) as (name' & rest' & Hname' & -> & Hrest').
        exists name', rest'. split; [by right|done].
Qed.

Lemma files_in_dir_paths (os : directories) :
  proper_names os →
  ∀ fuel dir_name is_file files,
    files_in_dir fuel os dir_name is_file = Some (Ok files) →
    NoDup files
    ∧ ∀ p, p ∈ files →
        ∃ name rest,
          p = child_prefix (rstrip_slash dir_name) +:+ name +:+ rest ∧ path_rest rest.
Proof.
  intros Hproper. induction fuel as [|fuel IH]; [done|].
  intros dir_name is_file files Hrun.
  apply files_in_dir_Ok_inv in Hrun as (fuel' & names & lists & [= <-] & Hnames & Hrun & ->).
  destruct (Hproper _ _ Hnames) as [Hnd Hproper_names].
  pose proof (rstrip_slash_no_trailing dir_name) as Hdir.
  destruct (deep_mapM_NoDup _ names lists (child_prefix (rstrip_slash dir_name))
              Hnd (λ n Hn, proj2 (Hproper_names n Hn)) Hrun) as [Hres Hin].
  - intros name list Hname Hentry. simpl in Hentry.
    destruct (Hproper_names name Hname) as [Hne Hslash].
    rewrite (os_path_join_child _ _ Hdir Hslash) in Hentry.
    destruct (isdir os _) eqn:Hisdir.
    + destruct (IH _ _ _ Hentry) as [Hlist Hpaths]. split; [done|].
      intros p Hp. destruct (Hpaths p Hp) as (name' & rest' & -> & Hrest').
      rewrite <- (os_path_join_child _ _ Hdir Hslash).
      destruct (child_stripped _ _ Hdir Hne Hslash) as [-> Hnonempty].
      unfold child_prefix at 1. rewrite decide_False by done.
      rewrite (os_path_join_child _ _ Hdir Hslash).
      exists ("/" +:+ name' +:+ rest').
      split; [by rewrite !string_app_assoc|by right].
    + injection Hentry as <-. destruct (is_file _); [|split; [constructor|]].
      * split; [apply NoDup_singleton|]. intros p ->%list_elem_of_singleton.
        exists "". split; [|by left].
        by rewrite string_app_nil_r.
      * by intros p ?%elem_of_nil.
  - split; [done|]. intros p Hp.
    destruct (Hin p Hp) as (name & rest & _ & -> & Hrest). by exists name, rest.
Qed.

Lemma example_directories_proper : proper_names example_directories.
Proof.
  intros dir names. simpl.
  destruct (decide (dir = "photos")); [|destruct (decide (dir = "photos/sub"))];
    intros [= <-]; (split; [by apply (bool_decide_unpack _)|]);
    intros name; rewrite !elem_of_cons, elem_of_nil.
  - by intros [->|[->|[->|[]]]].
  - by intros [->|[->|[]]].
Qed.

(** X16: a scan returns every path once.  When the listings name distinct
    entries, none empty and none with a slash, the list [files_in_dir]
    returns has no repetition. *)
Theorem files_in_dir_distinct (fuel : nat) (os : directories) (dir_name : string)
    (is_file : string → bool) (files : list string) :
  proper_names os →
  files_in_dir fuel os dir_name is_file = Some (Ok files) →
  NoDup files.
Proof.
  intros Hproper Hrun. by destruct (files_in_dir_paths os Hproper _ _ _ _ Hrun).
Qed.

Lemma files_in_dir_distinct_witness :
  NoDup ["photos/a.jpg"; "photos/sub/b.jpg"; "photos/sub/readme"].
Proof.
  apply (files_in_dir_distinct 2 example_directories "photos/" is_jpg).
  - apply example_directories_proper.
  - reflexivity.
Defined.

(** *** Depth of recursion *)

Lemma deep_mapM_Some {A B} (f : A → option (result B)) (l : list A) :
  (∀ x, x ∈ l → is_Some (f x)) → is_Some (deep_mapM f l).
Proof.
  induction l as [|x l IH]; intros Hf; [done|]. simpl.
  destruct (Hf x) as [[y|e] ->]; [by left| |done].
  destruct IH as [[ys|e] ->]; [|done..].
  intros x' Hx'. apply Hf. by right.
Qed.

Lemma deep_mapM_mono {A B} (f g : A → option (result B)) (l : list A) r :
  (∀ x r, x ∈ l → f x = Some r → g x = Some r) →
  deep_mapM f l = Some r → deep_mapM g l = Some r.
Proof.
  revert r. induction l as [|x l IH]; intros r Hfg; [done|]. simpl.
  destruct (f x) as [[y|e]|] eqn:Hx; [| |done].
  - rewrite (Hfg x (Ok y)) by (done || by left).
    destruct (deep_mapM f l) as [[ys|e]|] eqn:Hl; [| |done].
    + rewrite (IH (Ok ys)); [done| |done]. intros x' r' Hx'. apply Hfg. by right.
    + rewrite (IH (Raise e)); [done| |done]. intros x' r' Hx'. apply Hfg. by right.
  - by rewrite (Hfg x (Raise e)) by (done || by left).
Qed.

Lemma files_in_dir_more_fuel fuel os dir_name is_file r :
  files_in_dir fuel os dir_name is_file = Some r →
  files_in_dir (S fuel) os dir_name is_file = Some r.
Proof.
  revert dir_name is_file r. induction fuel as [|fuel IH]; [done|].
  intros dir_name is_file r. rewrite (files_in_dir_unfold (S fuel)), files_in_dir_unfold.
  destruct (listdir os (rstrip_slash dir_name)) as [names|e]; [|done].
  destruct (deep_mapM _ names) as [run|] eqn:Hrun; [|done].
  erewrite deep_mapM_mono; [done| |exact Hrun].
  intros name r' _. simpl. destruct (isdir os _); [apply IH|done].
Qed.

(** X17: the scan of a tree of bounded depth returns.  When the directories
    below [dir_name] nest less than [n] deep, a recursion of depth [n]
    gives an outcome, a list or an exception, and a deeper recursion gives
    the same. *)
Theorem files_in_dir_terminates (n more : nat) (os : directories) (dir_name : string)
    (is_file : string → bool) :
  depth_below os n (rstrip_slash dir_name) →
  ∃ outcome,
    files_in_dir n os dir_name is_file = Some outcome
    ∧ files_in_dir (n + more) os dir_name is_file = Some outcome.
Proof.
  intros Hdepth.
  assert (is_Some (files_in_dir n os dir_name is_file)) as [outcome Hrun].
  { revert dir_name is_file Hdepth. induction n as [|n IH]; [done|].
    intros dir_name is_file Hdepth. rewrite files_in_dir_unfold.
    destruct (listdir os (rstrip_slash dir_name)) as [names|e] eqn:Hnames; [|done].
    destruct (deep_mapM_Some
      (λ name,
         if isdir os (os_path_join (rstrip_slash dir_name) name)
         then files_in_dir n os (os_path_join (rstrip_slash dir_name) name) (isfile os)
         else Some (Ok (if is_file (os_path_join (rstrip_slash dir_name) name)
                        then [os_path_join (rstrip_slash dir_name) name] else [])))
      names) as [[lists|e] ->]; [|done..].
    intros name Hname. simpl.
    destruct (isdir os (os_path_join (rstrip_slash dir_name) name)) eqn:Hdir; [|done].
    apply IH. by apply (Hdepth names). }
  exists outcome. split; [done|].
  induction more as [|more IH]; [by rewrite Nat.add_0_r|].
  rewrite Nat.add_succ_r. by apply files_in_dir_more_fuel.
Qed.

Lemma files_in_dir_terminates_witness :
  ∃ outcome,
    files_in_dir 2 example_directories "photos/" is_jpg = Some outcome
    ∧ files_in_dir (2 + 5) example_directories "photos/" is_jpg = Some outcome.
Proof.
  apply (files_in_dir_terminates 2 5 example_directories "photos/" is_jpg).
  intros names [= <-] name. rewrite !elem_of_cons, elem_of_nil.
  intros [->|[->|[->|[]]]]; [done|done|].
  intros _ names' [= <-] name'. rewrite !elem_of_cons, elem_of_nil.
  intros [->|[->|[]]]; done.
Defined.


(** ** The sorted lists and the actions of the main program *)

#[local] Instance pair_le_total : Total pair_le.
Proof.
  intros p q. unfold pair_le. destruct (decide (p.1 = q.1)) as [Heq|Hne].
  - destruct (total String.le p.2 q.2); [left|right]; right; by split.
  - destruct (total String.le p.1 q.1); [left|right]; left; by split.
Qed.

#[local] Instance pair_le_trans : Transitive pair_le.
Proof.
  intros p q r [[Hpq Hle]|[Hpq Hle]] [[Hqr Hle']|[Hqr Hle']].
  - left. split; [|by etrans]. intros Hpr. rewrite <- Hpr in Hle'.
    by apply Hpq, (anti_symm String.le).
  - left. rewrite <- Hqr. by split.
  - left. rewrite Hpq. by split.
  - right. split; [congruence|by etrans].
Qed.

#[local] Instance pair_le_anti_symm : AntiSymm (=) pair_le.
Proof.
  intros [p1 p2] [q1 q2] [[Hne Hle]|[Heq Hle]] [[Hne' Hle']|[Heq' Hle']];
    simpl in *; try done.
  - destruct Hne. by apply (anti_symm String.le).
  - subst. f_equal. by apply (anti_symm String.le).
Qed.

(** Whatever the algorithm, the sorted rearrangement of a list is the one
    [sorted] and [sorted_pairs] give. *)
Lemma sorted_unique (l l' : list string) :
  Sorted String.le l' → l' ≡ₚ l → l' = sorted l.
Proof.
  intros Hsorted Hperm. apply (Sorted_unique String.le); [done| |].
  - apply Sorted_merge_sort, _.
  - unfold sorted. by rewrite merge_sort_Permutation.
Qed.


Lemma os_remove_Ok entry may_remove path files files' :
  os_remove entry may_remove path files = Ok files'
  ↔ entry path ∈ files ∧ may_remove (entry path) = true ∧ files' = files ∖ {[entry path]}.
Proof.
  unfold os_remove. destruct (decide (entry path ∈ files)) as [Hin|Hnot].
  - destruct (may_remove (entry path)); split; try done.
    + by intros [= <-].
    + by intros (_ & _ & ->).
    + by intros (_ & ? & _).
  - split; [done|]. by intros [? _].
Qed.

(** Removing one side of every pair in turn succeeds exactly when these
    sides lead to distinct entries, all there and all removable. *)
Lemma for_each_remove entry may_remove (side : string * string → string)
    pairs files files' :
  for_each (λ p, os_remove entry may_remove (side p)) pairs files = Ok files'
  ↔ NoDup ((λ p, entry (side p)) <$> pairs)
    ∧ (∀ e, e ∈ (λ p, entry (side p)) <$> pairs → e ∈ files ∧ may_remove e = true)
    ∧ files' = files ∖ list_to_set ((λ p, entry (side p)) <$> pairs).
Proof.
  revert files. induction pairs as [|p pairs IH]; intros files.
  - simpl. rewrite difference_empty_L. split.
    + intros [= <-]. split_and!; [constructor|by intros ? ?%elem_of_nil|done].
    + by intros (_ & _ & ->).
  - cbn [for_each fmap list_fmap].
    destruct (os_remove entry may_remove (side p) files) as [files1|e] eqn:Hremove; simpl.
    + apply os_remove_Ok in Hremove as (Hin & Hmay & ->). rewrite IH.
      rewrite NoDup_cons, difference_difference_l_L. split.
      * intros (Hnd & Hall & ->). split_and!; [|done| |done].
        -- intros Hp. apply Hall in Hp as [Hp _].
           apply elem_of_difference in Hp as [_ Hp]. by apply Hp, elem_of_singleton.
        -- intros e' [->|He']%elem_of_cons; [done|].
           apply Hall in He' as [He' ?]. split; [|done].
           by apply elem_of_difference in He' as [? _].
      * intros ([Hfresh Hnd] & Hall & ->). split_and!; [done| |done].
        intros e' He'. destruct (Hall e') as [? ?]; [by right|].
        split; [|done]. apply elem_of_difference. split; [done|].
        by intros ->%elem_of_singleton.
    + split; [done|]. intros (_ & Hall & _).
      destruct (Hall (entry (side p))) as [Hin Hmay]; [by left|].
      assert (os_remove entry may_remove (side p) files
              = Ok (files ∖ {[entry (side p)]})) as Hok
        by by apply os_remove_Ok.
      congruence.
Qed.


Lemma act_on_matches_remove (sys : system) (side : string * string → string)
    (matches : list (string * string)) (files files' : gset string) :
  for_each (λ p, os_remove (entry sys) (may_remove sys) (side p))
    (sorted_pairs matches) files = Ok files'
  ↔ NoDup (entry sys <$> (side <$> matches))
    ∧ (∀ path, path ∈ side <$> matches →
         entry sys path ∈ files ∧ may_remove sys (entry sys path) = true)
    ∧ files' = files ∖ list_to_set (entry sys <$> (side <$> matches)).
Proof.
  assert (sorted_pairs matches ≡ₚ matches) as Hperm by apply merge_sort_Permutation.
  rewrite for_each_remove, <- !list_fmap_compose.
  assert ((λ p, entry sys (side p)) <$> sorted_pairs matches
          ≡ₚ entry sys ∘ side <$> matches) as Hfmap by by rewrite Hperm.
  rewrite (list_to_set_perm_L (C := gset string) _ _ Hfmap).
  split; intros (Hnd & Hall & Heq); (split_and!; [| |done]).
  - by rewrite <- Hfmap.
  - intros path (p & -> & Hp)%list_elem_of_fmap. apply Hall. rewrite Hfmap.
    by apply (list_elem_of_fmap_2 (entry sys ∘ side)).
  - by rewrite Hfmap.
  - intros e. rewrite Hfmap. intros (p & -> & Hp)%list_elem_of_fmap.
    apply Hall. by apply list_elem_of_fmap_2.
Qed.

(** X18: when the deleting actions go through.  Over the matches, taken in
    sorted order, [delete_first] succeeds exactly when the first files of
    the matches lead to distinct directory entries, all there and all
    removable, and then exactly these entries are gone; as soon as one file
    is the first of two matches, or two first files are one file under two
    paths, it raises.  The same holds of [delete_second] and the second
    files. *)
Theorem delete_actions_succeed_iff (sys : system) (matches : list (string * string))
    (files files' : gset string) :
  (act_on_matches (delete_first sys) matches files = Ok files'
   ↔ NoDup (entry sys <$> matches.*1)
     ∧ (∀ path, path ∈ matches.*1 →
          entry sys path ∈ files ∧ may_remove sys (entry sys path) = true)
     ∧ files' = files ∖ list_to_set (entry sys <$> matches.*1))
  ∧ (act_on_matches (delete_second sys) matches files = Ok files'
     ↔ NoDup (entry sys <$> matches.*2)
       ∧ (∀ path, path ∈ matches.*2 →
            entry sys path ∈ files ∧ may_remove sys (entry sys path) = true)
       ∧ files' = files ∖ list_to_set (entry sys <$> matches.*2)).
Proof.
  split.
  - apply (act_on_matches_remove sys fst).
  - apply (act_on_matches_remove sys snd).
Qed.

(** A file under two paths, through a link to its directory: removing the
    one path removes the other, and removing both raises. *)
Example two_paths_of_one_file :
  let sys := {|
    entry := λ path, if decide (path = "photos/link/b.jpg") then "photos/sub/b.jpg" else path;
    may_remove := λ _, true;
    xv_installed := true
  |} in
  act_on_matches (delete_first sys) [("photos/link/b.jpg", "photos/sub/b.jpg")]
    {["photos/a.jpg"; "photos/sub/b.jpg"]}
  = Ok {["photos/a.jpg"]}
  ∧ act_on_matches (delete_first sys)
      [("photos/link/b.jpg", "photos/sub/b.jpg"); ("photos/sub/b.jpg", "photos/a.jpg")]
      {["photos/a.jpg"; "photos/sub/b.jpg"]}
    = Raise (IOError "photos/sub/b.jpg").
Proof.
  split.
  - apply (act_on_matches_remove _ fst). split_and!.
    + apply (bool_decide_unpack _). by vm_compute.
    + intros path [->|[]%elem_of_nil]%elem_of_cons. simpl. split; [set_solver|done].
    + simpl. apply set_eq. intros x. set_solver.
  - by vm_compute.
Qed.




(** *** The list the main program searches *)







(** ** The tables and the parser *)

(** X21: the lookups of the main program cannot fail.  Every value the
    parser admits for [--comparison-method] or [--action-equal], and each of
    the two defaults, is a key of the table the main program indexes with
    it; and the tables have no other key. *)
Theorem tables_cover_choices (os : file_system)
    (m : libm) (relative_difference : float → float → float) (decode : decoder) (sys : system)
    (key : string) :
  (key ∈ comparison_method_choices
   ↔ is_Some (table_get (COMPARISON_METHODS os m relative_difference decode) key))
  ∧ (key ∈ action_equal_choices ↔ is_Some (table_get (ACTIONS_ON_EQUALITY sys) key))
  ∧ comparison_method_default ∈ comparison_method_choices
  ∧ action_equal_default ∈ action_equal_choices.
Proof.
  unfold comparison_method_choices, action_equal_choices,
    COMPARISON_METHODS, ACTIONS_ON_EQUALITY.
  rewrite !elem_of_cons, !elem_of_nil. simpl. split_and!.
  - repeat case_decide; subst; split; try (by eauto); try (by intros [? [=]]);
      by intros [->|[->|[]]].
  - repeat case_decide; subst; split; try (by eauto); try (by intros [? [=]]);
      by intros [->|[->|[->|[->|[]]]]].
  - by left.
  - right. right. by left.
Qed.

(** ** The pool *)

